(** * LiftOff RAG ingestion: a shallow embedding of [backend/scripts/ingestPDFs.py]

    The script extracts the text of certification PDFs, cleans it
    ([clean_text]), cuts it into overlapping chunks ([split_into_chunks]),
    guesses a heading for every chunk ([extract_heading]), asks an embedding
    service for one vector per chunk ([embed_batch]) and stores the result in
    the SQLite table [KnowledgeChunk] ([ingest_source]).

    Python [str] values are modelled as lists of characters.  A character is
    an [ascii], read as a code point of the Latin-1 range U+0000..U+00FF, and
    the character classes ([str.isspace], [str.isupper], the [re] classes
    [\s], [\d], [\w]) are Python's classes on that range. *)

From Stdlib Require Import List Ascii String Bool Arith NArith ZArith Lia.
From Stdlib Require Import Permutation Sorted.
Import ListNotations.

Open Scope string_scope.
Open Scope nat_scope.
Open Scope list_scope.

Abbreviation length := List.length (only parsing).

(** Python's [and], which stops at the first false operand. *)
Notation "a &&& b" := (if a then b else false)
  (at level 40, left associativity, only parsing).

(** ** Python strings *)

Definition str := list ascii.

(** A string literal of the script. *)
Definition lit (s : string) : str := list_ascii_of_string s.

Definition LF  : ascii := "010"%char.   (* "\n" *)
Definition CR  : ascii := "013"%char.   (* "\r" *)
Definition FF  : ascii := "012"%char.   (* "\f" *)
Definition TAB : ascii := "009"%char.   (* "\t" *)
Definition SP  : ascii := " "%char.

Definition code (c : ascii) : N := N_of_ascii c.

Definition in_range (lo hi : N) (c : ascii) : bool :=
  (lo <=? code c)%N && (code c <=? hi)%N.

(** [str.isspace] and the class [\s]: TAB, LF, VT, FF, CR, the separators
    FS..US, the space, NEL and the no-break space. *)
Definition is_space (c : ascii) : bool :=
  in_range 9 13 c || in_range 28 32 c || (code c =? 133)%N || (code c =? 160)%N.

(** The class [\d]: the decimal digits. *)
Definition is_digit (c : ascii) : bool := in_range 48 57 c.

(** Characters with the Uppercase property. *)
Definition is_upper (c : ascii) : bool :=
  in_range 65 90 c || in_range 192 214 c || in_range 216 222 c.

(** Characters with the Lowercase property. *)
Definition is_lower (c : ascii) : bool :=
  in_range 97 122 c || (code c =? 170)%N || (code c =? 181)%N
  || (code c =? 186)%N || in_range 223 246 c || in_range 248 255 c.

(** The class [\w]: alphanumeric characters and the underscore. *)
Definition is_word (c : ascii) : bool :=
  is_upper c || is_lower c || is_digit c || (code c =? 95)%N
  || in_range 178 179 c || (code c =? 185)%N || in_range 188 190 c.

(** The class [[ \t]]. *)
Definition is_blank (c : ascii) : bool := Ascii.eqb c SP || Ascii.eqb c TAB.

(** [dropwhile p l]: [l] without its longest prefix of characters in [p]. *)
Fixpoint dropwhile (p : ascii -> bool) (l : str) : str :=
  match l with
  | [] => []
  | c :: r => if p c then dropwhile p r else l
  end.

Fixpoint takewhile (p : ascii -> bool) (l : str) : str :=
  match l with
  | [] => []
  | c :: r => if p c then c :: takewhile p r else []
  end.

(** [s.lstrip()], [s.rstrip()], [s.strip()]. *)
Definition lstrip (l : str) : str := dropwhile is_space l.

Fixpoint rstrip (l : str) : str :=
  match l with
  | [] => []
  | c :: r =>
      match rstrip r with
      | [] => if is_space c then [] else [c]
      | r' => c :: r'
      end
  end.

Definition strip (l : str) : str := rstrip (lstrip l).

(** Adds a character in front of the first element. *)
Definition push_head (c : ascii) (parts : list str) : list str :=
  match parts with
  | h :: t => (c :: h) :: t
  | [] => [[c]]
  end.

(** [s.split("\n")]: the lines of [s]; never the empty list. *)
Fixpoint split_nl (l : str) : list str :=
  match l with
  | [] => [[]]
  | c :: r =>
      if Ascii.eqb c LF then [] :: split_nl r
      else push_head c (split_nl r)
  end.

(** ["\n".join(lines)] and, in general, [sep.join(parts)]. *)
Fixpoint join (sep : str) (parts : list str) : str :=
  match parts with
  | [] => []
  | [p] => p
  | p :: rest => p ++ sep ++ join sep rest
  end.

(** [s.split()]: the maximal runs of non-whitespace characters.  A word ends
    where the next character is whitespace or the text ends. *)
Fixpoint words (l : str) : list str :=
  match l with
  | [] => []
  | c :: r =>
      if is_space c then words r
      else match r with
           | d :: _ =>
               if is_space d then [c] :: words r else push_head c (words r)
           | [] => [[c]]
           end
  end.

(** [s.isupper()]: no lowercase character and at least one uppercase one. *)
Definition isupper (l : str) : bool :=
  existsb is_upper l && negb (existsb is_lower l).

(** [s.endswith(".")]. *)
Definition endswith_period (l : str) : bool :=
  Ascii.eqb (last l SP) "."%char.

(** [s.find(" ")]: the index of the first space, [None] for Python's [-1]. *)
Fixpoint find_space (l : str) : option nat :=
  match l with
  | [] => None
  | c :: r => if Ascii.eqb c SP then Some 0
              else option_map S (find_space r)
  end.

(** ** [clean_text] *)

(** [text.replace("\r\n", "\n")]. *)
Fixpoint replace_crlf (l : str) : str :=
  match l with
  | [] => []
  | c :: r =>
      match r with
      | d :: r' =>
          if Ascii.eqb c CR && Ascii.eqb d LF then LF :: replace_crlf r'
          else c :: replace_crlf r
      | [] => [c]
      end
  end.

(** [text.replace("\r", "\n")]. *)
Definition replace_cr (l : str) : str :=
  map (fun c => if Ascii.eqb c CR then LF else c) l.

(** [text.replace("\f", "\n\n")]. *)
Definition replace_ff (l : str) : str :=
  flat_map (fun c => if Ascii.eqb c FF then [LF; LF] else [c]) l.

(** [re.sub(r"(\w)-\n(\w)", r"\1\2", text)]: matches are found from the left
    and do not overlap; the scan resumes after the second word character. *)
Fixpoint rejoin_hyphens (l : str) : str :=
  match l with
  | [] => []
  | a :: r =>
      match r with
      | h :: n :: b :: r' =>
          if Ascii.eqb h "-"%char &&& Ascii.eqb n LF &&& is_word a &&& is_word b
          then a :: b :: rejoin_hyphens r'
          else a :: rejoin_hyphens r
      | _ => a :: rejoin_hyphens r
      end
  end.

(** Index of the last LF of [l]. *)
Fixpoint last_lf (l : str) : option nat :=
  match l with
  | [] => None
  | c :: r =>
      match last_lf r with
      | Some i => Some (S i)
      | None => if Ascii.eqb c LF then Some 0 else None
      end
  end.

(** The match of [^\s*\d{1,4}\s*$] (flag MULTILINE) at a position where [^]
    holds, [l] being the text from that position on: the length of the match.
    Both [\s*] are greedy.  The first one takes the whole run of whitespace
    (a shorter one would leave a whitespace character for [\d]); the digits
    are one to four and followed by no fifth digit; the second [\s*] gives
    characters back until [$] holds, that is, until the end of the text or
    the position before a line feed. *)
Definition page_number_match (l : str) : option nat :=
  let ws1 := takewhile is_space l in
  let l1 := dropwhile is_space l in
  let ds := takewhile is_digit l1 in
  let l2 := dropwhile is_digit l1 in
  let ws2 := takewhile is_space l2 in
  let l3 := dropwhile is_space l2 in
  if (1 <=? length ds) && (length ds <=? 4) then
    match l3 with
    | [] => Some (length ws1 + length ds + length ws2)
    | _ :: _ =>
        match last_lf ws2 with
        | Some j => Some (length ws1 + length ds + j)
        | None => None
        end
    end
  else None.

(** [re.sub] of [^\s*\d{1,4}\s*$] by the empty string, with the flag
    [re.MULTILINE].  [skip] counts
    the characters of the current match still to be dropped; [bol] tells
    whether [^] holds here (start of the text, or the previous character of
    the text is a line feed). *)
Fixpoint strip_page_numbers_from (skip : nat) (bol : bool) (l : str) : str :=
  match l with
  | [] => []
  | c :: r =>
      match skip with
      | S n => strip_page_numbers_from n (Ascii.eqb c LF) r
      | O =>
          if bol then
            match page_number_match l with
            | Some (S n) => strip_page_numbers_from n (Ascii.eqb c LF) r
            | _ => c :: strip_page_numbers_from 0 (Ascii.eqb c LF) r
            end
          else c :: strip_page_numbers_from 0 (Ascii.eqb c LF) r
      end
  end.

Definition strip_page_numbers (l : str) : str :=
  strip_page_numbers_from 0 true l.

(** [re.sub(r"\n{3,}", "\n\n", text)]: of a run of line feeds, the first two
    are kept.  [k] counts the line feeds of the current run seen so far. *)
Fixpoint collapse_newlines_from (k : nat) (l : str) : str :=
  match l with
  | [] => []
  | c :: r =>
      if Ascii.eqb c LF
      then if k <? 2 then LF :: collapse_newlines_from (S k) r
           else collapse_newlines_from k r
      else c :: collapse_newlines_from 0 r
  end.

Definition collapse_newlines (l : str) : str := collapse_newlines_from 0 l.

(** The test of the loop over the lines: an all-caps, short line with at
    most six words is dropped. *)
Definition is_caps_line (line : str) : bool :=
  let stripped := strip line in
  negb (length stripped =? 0) && isupper stripped
  && (length stripped <? 60) && (length (words stripped) <=? 6).

Definition drop_caps_lines (l : str) : str :=
  join [LF] (filter (fun line => negb (is_caps_line line)) (split_nl l)).

(** [re.sub(r"[ \t]{2,}", " ", text)]: a run of two or more blanks becomes one
    space.  [in_run] tells that such a run is being dropped. *)
Fixpoint collapse_blanks_from (in_run : bool) (l : str) : str :=
  match l with
  | [] => []
  | c :: r =>
      if is_blank c then
        if in_run then collapse_blanks_from true r
        else match r with
             | d :: _ =>
                 if is_blank d then SP :: collapse_blanks_from true r
                 else c :: collapse_blanks_from false r
             | [] => [c]
             end
      else c :: collapse_blanks_from false r
  end.

Definition collapse_blanks (l : str) : str := collapse_blanks_from false l.

(** ["\n".join(l.strip() for l in text.split("\n"))]. *)
Definition strip_lines (l : str) : str := join [LF] (map strip (split_nl l)).

Definition clean_text (raw : str) : str :=
  let text := raw in
  let text := replace_cr (replace_crlf text) in
  let text := replace_ff text in
  let text := rejoin_hyphens text in
  let text := strip_page_numbers text in
  let text := collapse_newlines text in
  let text := drop_caps_lines text in
  let text := collapse_blanks text in
  let text := strip_lines text in
  strip text.

(** ** [extract_heading] *)

(** The two tests on a stripped line [t]. *)
Definition heading_ok (t : str) : bool :=
  ((3 <=? length t) && (length t <=? 80)
   && negb (endswith_period t)
   && match t with c :: _ => is_upper c | [] => false end)
  && ((2 <=? length (words t))
      || ((length (words t) =? 1) && (5 <? length t))).

(** The [for] loop: the first line whose stripped form passes is returned. *)
Fixpoint first_heading (lines : list str) : option str :=
  match lines with
  | [] => None
  | line :: rest =>
      let t := strip line in
      if heading_ok t then Some t else first_heading rest
  end.

Definition extract_heading (text : str) : option str :=
  first_heading (firstn 6 (split_nl text)).

(** ** [split_into_chunks] *)

Definition CHUNK_TARGET_CHARS : nat := 2400.
Definition CHUNK_OVERLAP_CHARS : nat := 320.
Definition MIN_CHUNK_CHARS : nat := 200.
Definition EMBED_BATCH_SIZE : nat := 20.

(** [re.split(r"\n\n+", text)]: the text is cut at every run of two or more
    line feeds.  [in_sep] tells that such a run is being read. *)
Fixpoint split_paragraphs_from (in_sep : bool) (l : str) : list str :=
  match l with
  | [] => [[]]
  | c :: r =>
      if in_sep && Ascii.eqb c LF then split_paragraphs_from true r
      else match r with
           | d :: r' =>
               if Ascii.eqb c LF && Ascii.eqb d LF
               then [] :: split_paragraphs_from true r'
               else push_head c (split_paragraphs_from false r)
           | [] => [[c]]
           end
  end.

Definition split_paragraphs (l : str) : list str :=
  split_paragraphs_from false l.

(** [s[-n:]] for a positive [n]. *)
Definition last_chars (n : nat) (l : str) : str := skipn (length l - n) l.

(** The overlap built from the chunk that is closed:
    [tail = current[-CHUNK_OVERLAP_CHARS:]], [idx = tail.find(" ")],
    [overlap = tail[idx + 1:] if idx >= 0 else tail]. *)
Definition overlap_of (current : str) : str :=
  let tail := last_chars CHUNK_OVERLAP_CHARS current in
  match find_space tail with
  | Some idx => skipn (idx + 1) tail
  | None => tail
  end.

Definition nonempty (l : str) : bool :=
  match l with [] => false | _ :: _ => true end.

(** The state of the loop is [(chunks, current)]; [overlap] is only read
    right after it is written. *)
Definition chunk_step (st : list str * str) (para : str) : list str * str :=
  let '(chunks, current) := st in
  let para := strip para in
  if nonempty para then
    let candidate :=
      if nonempty current then strip (current ++ [LF; LF] ++ para) else para in
    if (CHUNK_TARGET_CHARS <? length candidate) && nonempty current then
      let overlap := overlap_of current in
      (chunks ++ [strip current], strip (overlap ++ [LF; LF] ++ para))
    else (chunks, candidate)
  else st.

Definition chunk_loop (text : str) : list str * str :=
  fold_left chunk_step (split_paragraphs text) ([], []).

(** The list [chunks] when the [return] statement is reached. *)
Definition closed_chunks (text : str) : list str :=
  let '(chunks, current) := chunk_loop text in
  if nonempty (strip current) && (MIN_CHUNK_CHARS <=? length (strip current))
  then chunks ++ [strip current]
  else chunks.

Definition split_into_chunks (text : str) : list str :=
  filter (fun c => MIN_CHUNK_CHARS <=? length c) (closed_chunks text).

(** [estimate_tokens]. *)
Definition estimate_tokens (text : str) : nat := Nat.max 1 (length text / 4).

(** ** Configuration *)

Record SourceCfg := { cfg_file : str; cfg_source : str }.

Definition PDF_SOURCES : list SourceCfg :=
  [ {| cfg_file := lit "NASM Essentials of Personal Fitness Training, 6th Edition -- Micheal Clark, Brian G. Sutton, Scott Lucett, National -- ( WeLib.org ).pdf";
       cfg_source := lit "NASM" |};
    {| cfg_file := lit "a2ccc60ae9064b80daaa9ee86edc46f7_ACE Personal Trainer Manual Study Companion Fifth Edition -- American Council on Exercise; Project editor Daniel J Green -- ( WeLib.org ).pdf";
       cfg_source := lit "ACE" |};
    {| cfg_file := lit "Advanced Concepts of Personal Training, 2nd Ed -- Arturo Leyva, PhD; Davy Levy, MS; Jennifer Maher, PhD; -- ( WeLib.org ).pdf";
       cfg_source := lit "NCSF" |};
    {| cfg_file := lit "f9468a7174eadc1000de9b5c81d04864_NFPT Manual -- NFPT -- ( WeLib.org ).pdf";
       cfg_source := lit "NFPT" |} ].

(** ** The embedding service and the store *)

Section Ingestion.

(** An embedding, [list[float]]: the script only moves it from the answer
    of the service to the store. *)
Context {Vec : Type}.

(** An element of [data["data"]]. *)
Record Item := { item_index : Z; item_embedding : Vec }.

(** A row of the table [KnowledgeChunk].  [embedding] stands for the text
    [json.dumps(embedding)]. *)
Record KnowledgeChunk := {
  id : str;
  source : str;
  chapter : option str;
  content : str;
  embedding : Vec;
  tokenCount : nat;
  createdAt : str
}.

(** What the script gets from outside.  [batch_idx] names the request of a
    run, [(batch_idx, j)] one [INSERT] of it. *)
Record Env := {
  (* [PDF_DIR / file]: the text of the pages, [None] when it does not exist *)
  pdf_pages : str -> option (list str);
  (* [.env]: the key, [None] when [load_api_key] raises *)
  load_api_key : option str;
  (* the answer [data["data"]] of the service to a request, [None] when
     [urlopen], [json.loads] or the access to the items raises *)
  openai_embeddings : str -> nat -> list str -> option (list Item);
  (* whether [conn.execute("INSERT ...")] raises *)
  insert_raises : str -> nat -> nat -> bool;
  uuid4 : str -> nat -> nat -> str;
  datetime_now : str -> nat -> nat -> str
}.

Inductive DbOp :=
| OpConnect | OpSelect | OpDelete | OpInsert | OpCommit | OpClose.

(** The database file and the connection of the script to it: the
    committed rows, the rows written by the open transaction, and the
    statements run so far. *)
Record Db := {
  table : list KnowledgeChunk;
  txn : list KnowledgeChunk;
  ops : list DbOp
}.

Definition logged (op : DbOp) (db : Db) : Db :=
  {| table := table db; txn := txn db; ops := ops db ++ [op] |}.

(** The rows a [SELECT] of the connection sees. *)
Definition visible (db : Db) : list KnowledgeChunk := table db ++ txn db.

(** [a == b] on strings. *)
Fixpoint str_eqb (a b : str) : bool :=
  match a, b with
  | [], [] => true
  | x :: a', y :: b' => Ascii.eqb x y &&& str_eqb a' b'
  | _, _ => false
  end.

Definition of_source (s : str) (row : KnowledgeChunk) : bool :=
  str_eqb (source row) s.

Definition db_connect (db : Db) : Db :=
  logged OpConnect {| table := table db; txn := []; ops := ops db |}.

Definition conn_commit (db : Db) : Db :=
  logged OpCommit {| table := table db ++ txn db; txn := []; ops := ops db |}.

(** [conn.close()]: what was not committed is lost. *)
Definition conn_close (db : Db) : Db :=
  logged OpClose {| table := table db; txn := []; ops := ops db |}.

(** [db_delete_source]: the [DELETE], the commit and [cur.rowcount]. *)
Definition db_delete_source (db : Db) (s : str) : Db * nat :=
  let kept := filter (fun row => negb (of_source s row)) (visible db) in
  let deleted := length (filter (of_source s) (visible db)) in
  (conn_commit (logged OpDelete {| table := kept; txn := []; ops := ops db |}),
   deleted).

(** [db_insert_chunk]: [None] when the statement raises. *)
Definition db_insert_chunk (env : Env) (batch_idx j : nat) (db : Db)
    (s : str) (ch : option str) (text : str) (e : Vec) (token_count : nat)
    : option Db :=
  if insert_raises env s batch_idx j then None
  else
    let row := {| id := uuid4 env s batch_idx j; source := s; chapter := ch;
                  content := text; embedding := e;
                  tokenCount := token_count;
                  createdAt := datetime_now env s batch_idx j |} in
    Some (logged OpInsert
            {| table := table db; txn := txn db ++ [row]; ops := ops db |}).

(** [db_count]: with an empty [source] every row is counted. *)
Definition db_count (db : Db) (s : str) : Db * nat :=
  (logged OpSelect db,
   if nonempty s then length (filter (of_source s) (visible db))
   else length (visible db)).

(** ** [embed_batch] *)

(** [sorted(items, key=lambda x: x["index"])], a stable sort. *)
Fixpoint insert_item (x : Item) (l : list Item) : list Item :=
  match l with
  | [] => [x]
  | y :: r =>
      if (item_index x <=? item_index y)%Z then x :: l
      else y :: insert_item x r
  end.

Definition sorted_by_index (items : list Item) : list Item :=
  fold_right insert_item [] items.

(** [None] stands for the exception of a failed request. *)
Definition embed_batch (env : Env) (batch_idx : nat) (texts : list str)
    (api_key : str) : option (list Vec) :=
  match openai_embeddings env api_key batch_idx texts with
  | None => None
  | Some data => Some (map item_embedding (sorted_by_index data))
  end.

(** ** [ingest_source] *)

(** What a call prints at its end. *)
Inductive Outcome :=
| FileNotFound
| DryRun (preview : list str)
| Complete (stored skipped : nat).

(** The inner loop over [enumerate(zip(batch, embeddings))]: the
    connection, [stored], and whether the loop ended without exception. *)
Fixpoint insert_pairs (env : Env) (s : str) (batch_idx j : nat)
    (pairs : list (str * Vec)) (conn : Db) (stored : nat)
    : Db * nat * bool :=
  match pairs with
  | [] => (conn, stored, true)
  | (text, e) :: rest =>
      let ch := extract_heading text in
      let token_count := estimate_tokens text in
      match db_insert_chunk env batch_idx j conn s ch text e token_count with
      | None => (conn, stored, false)
      | Some conn' => insert_pairs env s batch_idx (S j) rest conn' (S stored)
      end
  end.

(** One turn of the loop over the batches; the state is
    [(conn, stored, skipped)]. *)
Definition batch_step (env : Env) (s api_key : str) (chunks : list str)
    (st : Db * nat * nat) (batch_idx : nat) : Db * nat * nat :=
  let '(conn, stored, skipped) := st in
  let batch := firstn EMBED_BATCH_SIZE (skipn batch_idx chunks) in
  match embed_batch env batch_idx batch api_key with
  | None => (conn, stored, skipped + length batch)
  | Some embeddings =>
      match insert_pairs env s batch_idx 0 (combine batch embeddings)
              conn stored with
      | (conn', stored', true) => (conn_commit conn', stored', skipped)
      | (conn', stored', false) => (conn', stored', skipped + length batch)
      end
  end.

(** [range(0, total, step)]. *)
Definition range_step (total step : nat) : list nat :=
  map (fun k => k * step) (seq 0 ((total + step - 1) / step)).

(** The part of [ingest_source] after the chunking, in live mode. *)
Definition store_chunks (env : Env) (s api_key : str) (chunks : list str)
    (db : Db) : Db * Outcome :=
  let conn := db_connect db in
  let '(conn, existing) := db_count conn s in
  let conn := if 0 <? existing then fst (db_delete_source conn s) else conn in
  let total := length chunks in
  let '(conn, stored, skipped) :=
    fold_left (batch_step env s api_key chunks)
              (range_step total EMBED_BATCH_SIZE) (conn, 0, 0) in
  (conn_close conn, Complete stored skipped).

Definition ingest_source (env : Env) (source_cfg : SourceCfg)
    (api_key : str) (dry_run : bool) (db : Db) : Db * Outcome :=
  let s := cfg_source source_cfg in
  match pdf_pages env (cfg_file source_cfg) with
  | None => (db, FileNotFound)
  | Some pages_text =>
      let raw := join [LF; LF] pages_text in
      let cleaned := clean_text raw in
      let chunks := split_into_chunks cleaned in
      if dry_run then (db, DryRun (map (firstn 400) (firstn 3 chunks)))
      else store_chunks env s api_key chunks db
  end.

(** ** [main] *)

Inductive MainResult :=
| Exit1                                  (* [sys.exit(1)]: unknown source *)
| Raised                                 (* [load_api_key] raised *)
| Done (db : Db) (report : list Outcome) (total : option nat).

Fixpoint ingest_all (env : Env) (sources : list SourceCfg) (api_key : str)
    (dry_run : bool) (db : Db) : Db * list Outcome :=
  match sources with
  | [] => (db, [])
  | source_cfg :: rest =>
      let '(db1, o) := ingest_source env source_cfg api_key dry_run db in
      let '(db2, os) := ingest_all env rest api_key dry_run db1 in
      (db2, o :: os)
  end.

(** [arg_source] is [args.source]; the grouped listing of the final state
    is printed from a second [SELECT]. *)
Definition main (env : Env) (arg_source : option str) (dry_run : bool)
    (db : Db) : MainResult :=
  let selected :=
    match arg_source with
    | Some ((_ :: _) as name) =>
        Some (filter (fun c => str_eqb (cfg_source c) name) PDF_SOURCES)
    | _ => None
    end in
  match selected with
  | Some [] => Exit1
  | _ =>
      let sources :=
        match selected with Some l => l | None => PDF_SOURCES end in
      match (if dry_run then Some [] else load_api_key env) with
      | None => Raised
      | Some api_key =>
          let '(db1, report) := ingest_all env sources api_key dry_run db in
          if dry_run then Done db1 report None
          else
            let conn := db_connect db1 in
            let '(conn, total) := db_count conn [] in
            let conn := logged OpSelect conn in
            Done (conn_close conn) report (Some total)
      end
  end.

End Ingestion.

Arguments Item : clear implicits.
Arguments KnowledgeChunk : clear implicits.
Arguments Env : clear implicits.
Arguments Db : clear implicits.
Arguments MainResult : clear implicits.

(** ** [load_api_key] *)

(** The line boundaries of [str.splitlines]: LF, VT, FF, CR, FS, GS, RS and
    NEL. *)
Definition is_linebreak (c : ascii) : bool :=
  in_range 10 13 c || in_range 28 30 c || (code c =? 133)%N.

(** [s.splitlines()]: CR LF is one boundary, and a boundary at the end of
    the text opens no last line. *)
Fixpoint splitlines (l : str) : list str :=
  match l with
  | [] => []
  | c :: r =>
      if is_linebreak c then
        match r with
        | d :: r' =>
            if Ascii.eqb c CR && Ascii.eqb d LF then [] :: splitlines r'
            else [] :: splitlines r
        | [] => [[]]
        end
      else push_head c (splitlines r)
  end.

(** [s.strip(chars)], [p] being the test of membership in [chars]. *)
Fixpoint rstrip_chars (p : ascii -> bool) (l : str) : str :=
  match l with
  | [] => []
  | c :: r =>
      match rstrip_chars p r with
      | [] => if p c then [] else [c]
      | r' => c :: r'
      end
  end.

Definition strip_chars (p : ascii -> bool) (l : str) : str :=
  rstrip_chars p (dropwhile p l).

(** [s.startswith(prefix)]. *)
Fixpoint startswith (prefix l : str) : bool :=
  match prefix, l with
  | [], _ => true
  | x :: prefix', y :: l' => Ascii.eqb x y &&& startswith prefix' l'
  | _ :: _, [] => false
  end.

(** [s.split(sep, 1)] for a separator of one character. *)
Fixpoint split_once (sep : ascii) (l : str) : list str :=
  match l with
  | [] => [[]]
  | c :: r => if Ascii.eqb c sep then [[]; r] else push_head c (split_once sep r)
  end.

Definition DQUOTE : ascii := "034"%char.
Definition SQUOTE : ascii := "039"%char.
Definition OPENAI_API_KEY_EQ : str := lit "OPENAI_API_KEY=".

(** What a call gives: the key, or the exception it ends with. *)
Inductive KeyResult :=
| Key (key : str)
| FileNotFoundError
| IndexError
| ValueError.

(** The loop over the lines of [.env]. *)
Fixpoint first_key (lines : list str) : KeyResult :=
  match lines with
  | [] => ValueError
  | line :: rest =>
      let line := strip line in
      if startswith OPENAI_API_KEY_EQ line then
        match nth_error (split_once "="%char line) 1 with
        | None => IndexError
        | Some value =>
            let key :=
              strip_chars (Ascii.eqb SQUOTE)
                (strip_chars (Ascii.eqb DQUOTE) (strip value)) in
            if nonempty key then Key key else first_key rest
        end
      else first_key rest
  end.

(** [load_api_key], as a function of the text of [.env]; [None] when the
    file does not exist. *)
Definition load_api_key_from (dotenv : option str) : KeyResult :=
  match dotenv with
  | None => FileNotFoundError
  | Some text => first_key (splitlines text)
  end.

(** ** Texts used in examples *)

(** An empty line. *)
Definition blank : string := EmptyString.

(** Lines of a text, written one per list element. *)
Definition text_of (lines : list string) : str := join [LF] (map lit lines).

(** [s * n]. *)
Definition rep (n : nat) (s : string) : str := List.concat (repeat (lit s) n).

(** * Vocabulary of the properties

    What the statements below speak of: the rules of the specification, the
    invariants of the loops, and the inputs of the examples. *)

(** ** Headings *)

(** The rule of the specification for a stripped line. *)
Definition qualifies (t : str) : Prop :=
  (3 <= length t <= 80)
  /\ (forall p, t <> p ++ ["."%char])
  /\ (exists c r, t = c :: r /\ is_upper c = true)
  /\ (2 <= length (words t) \/ (length (words t) = 1 /\ 5 < length t)).

(** ** Answers of the embedding service *)

Section OrderVocabulary.

Context {Vec : Type}.

(** The order of [sorted], and the strict order of distinct indices. *)
Definition index_le (a b : Item Vec) : Prop :=
  (item_index a <= item_index b)%Z.

Definition index_lt (a b : Item Vec) : Prop :=
  (item_index a < item_index b)%Z.

(** The answer in the order of the request: item [i] carries vector [i]. *)
Fixpoint indexed_from (i : Z) (vs : list Vec) : list (Item Vec) :=
  match vs with
  | [] => []
  | v :: r =>
      {| item_index := i; item_embedding := v |} :: indexed_from (i + 1) r
  end.

(** The items [(0, vs[0])], [(1, vs[1])], ... *)
Definition indexed (vs : list Vec) : list (Item Vec) := indexed_from 0 vs.

End OrderVocabulary.

(** An answer in the order 2, 0, 1. *)
Definition shuffled_answer : list (Item nat) :=
  [ {| item_index := 2; item_embedding := 30 |};
    {| item_index := 0; item_embedding := 10 |};
    {| item_index := 1; item_embedding := 20 |} ].

(** A service that always gives this answer. *)
Definition shuffling_env : Env nat :=
  {| pdf_pages := fun _ => None;
     load_api_key := Some (lit "sk-test");
     openai_embeddings := fun _ _ _ => Some shuffled_answer;
     insert_raises := fun _ _ _ => false;
     uuid4 := fun _ _ _ => [];
     datetime_now := fun _ _ _ => [] |}.

(** ** Runs of the live mode *)

Section StoreVocabulary.

Context {Vec : Type}.

(** The rows of a source in the committed table. *)
Definition rows_of (s : str) (db : Db Vec) : list (KnowledgeChunk Vec) :=
  filter (of_source s) (table db).

(** The rows of the other sources. *)
Definition other_rows (s : str) (db : Db Vec) : list (KnowledgeChunk Vec) :=
  filter (fun row => negb (of_source s row)) (table db).

(** The batch that starts at [batch_idx]. *)
Definition batch_at (chunks : list str) (batch_idx : nat) : list str :=
  firstn EMBED_BATCH_SIZE (skipn batch_idx chunks).

(** A run without failure: no [INSERT] raises and every request is answered
    with as many items as it had texts. *)
Definition run_succeeds (env : Env Vec) (s api_key : str)
    (chunks : list str) : Prop :=
  (forall batch_idx j, insert_raises env s batch_idx j = false)
  /\ (forall batch_idx,
        exists data,
          openai_embeddings env api_key batch_idx (batch_at chunks batch_idx)
          = Some data
          /\ length data = length (batch_at chunks batch_idx)).

(** The statements of the loop over the batches. *)
Definition writes_only (w : list DbOp) : Prop :=
  Forall (fun op => op = OpInsert \/ op = OpCommit) w.

(** The deletion at the start of the live part: whatever the count says, the
    connection then sees no row of the source. *)
Definition after_delete (s : str) (db : Db Vec) : Db Vec :=
  let '(conn, existing) := db_count (db_connect db) s in
  if 0 <? existing then fst (db_delete_source conn s) else conn.

End StoreVocabulary.

(** A source and its document, generated below. *)
Definition demo_cfg : SourceCfg :=
  {| cfg_file := lit "nasm.pdf"; cfg_source := lit "NASM" |}.

(** A page of [n] paragraphs of 1200 characters: every paragraph closes the
    chunk before it. *)
Definition demo_page (n : nat) : str := join [LF; LF] (repeat (rep 1200 "x") n).

(** The service answers every request in order, with the length of a text as
    its vector; [raises] tells which [INSERT] fails. *)
Definition demo_env (n : nat) (raises : nat -> nat -> bool) : Env nat :=
  {| pdf_pages := fun _ => Some [demo_page n];
     load_api_key := Some (lit "sk-test");
     openai_embeddings :=
       fun _ _ texts => Some (indexed (map (@List.length ascii) texts));
     insert_raises := fun _ => raises;
     uuid4 := fun _ _ _ => [];
     datetime_now := fun _ _ _ => [] |}.

(** A row left by an earlier run, and two states of the store. *)
Definition old_row : KnowledgeChunk nat :=
  {| id := []; source := lit "NASM"; chapter := None; content := lit "old";
     embedding := 0; tokenCount := 1; createdAt := [] |}.

(** An empty store. *)
Definition empty_db : Db nat := {| table := []; txn := []; ops := [] |}.

(** A store with 50 rows of the source. *)
Definition db_with_50_rows : Db nat :=
  {| table := repeat old_row 50; txn := []; ops := [] |}.

(** The second [INSERT] of the first batch raises. *)
Definition second_insert_raises (batch_idx j : nat) : bool :=
  (batch_idx =? 0) && (j =? 1).

(** ** The scenario of the specification for [clean_text] *)

Definition scenario : str :=
  text_of [ "Page 1"; blank; "Hello world."; blank; "THIS IS A HEADER"; blank;
            "More body text that continues on and on..." ].

(** Its all-caps line. *)
Definition header_line : str := lit "THIS IS A HEADER".

(** A line that holds one to four digits and nothing else but whitespace. *)
Definition digit_only_line (line : str) : bool :=
  let t := strip line in
  (1 <=? length t) && (length t <=? 4) && forallb is_digit t.

(** [line] is a line of [input] and no line of [clean_text input]. *)
Definition removed_by_clean_text (line input : str) : Prop :=
  In line (split_nl input) /\ ~ In line (split_nl (clean_text input)).

(** The scenario as the specification tells it: a digit-only line and the
    header line are removed. *)
Definition scenario_as_specified : Prop :=
  (exists line, digit_only_line line = true
                /\ removed_by_clean_text line scenario)
  /\ removed_by_clean_text header_line scenario.

(** [line in text.split("\n")], as a test. *)
Definition in_lines (line text : str) : bool :=
  existsb (str_eqb line) (split_nl text).

(** ** Chunks and their overlap *)

(** The two halves of being stripped, for a non-empty string. *)
Definition starts_nonspace (l : str) : Prop :=
  exists c r, l = c :: r /\ is_space c = false.

(** The last character is not whitespace. *)
Definition ends_nonspace (l : str) : Prop :=
  exists init z, l = init ++ [z] /\ is_space z = false.

(** The prefix of the next buffer: the overlap without leading whitespace. *)
Definition seed (c : str) : str := lstrip (overlap_of c).

(** [s] is a non-empty suffix of [c] that starts a word: it is [c] itself
    or the character before it is whitespace. *)
Definition word_aligned_suffix (s c : str) : Prop :=
  s <> []
  /\ (c = s \/ exists pre w, c = pre ++ w :: s /\ is_space w = true).




(** Two paragraphs of words; the first chunk is closed by the second. *)
Definition words_text : str :=
  rep 400 "word " ++ [LF; LF] ++ rep 100 "next ".

(** Its two chunks. *)
Definition words_first : str := nth 0 (closed_chunks words_text) [].



(** ** Texts that [clean_text] returns *)

(** No carriage return and no form feed is left after the first steps. *)
Definition plain (c : ascii) : Prop := c <> CR /\ c <> FF.

(** Whether a text starts with a blank. *)
Definition head_blank (l : str) : bool :=
  match l with c :: _ => is_blank c | [] => false end.

(** No two blanks follow each other. *)
Fixpoint no_blank_pair (l : str) : Prop :=
  match l with
  | [] => True
  | c :: r => (is_blank c = true -> head_blank r = false) /\ no_blank_pair r
  end.

(** Whitespace other than the line feed. *)
Definition hspace (c : ascii) : Prop := is_space c = true /\ c <> LF.

(** No whitespace other than line feeds next to a line feed or at an end of
    the text; [prev] is the character before [t], a line feed at the start
    of the text. *)
Fixpoint lines_ok (prev : ascii) (t : str) : Prop :=
  match t with
  | [] => ~ hspace prev
  | c :: r =>
      ~ (prev = LF /\ hspace c) /\ ~ (hspace prev /\ c = LF) /\ lines_ok c r
  end.

(** An all-caps line between two blank lines. *)
Definition header_between_blank_lines : str :=
  text_of ["a"; blank; "HEADER"; blank; "b"].

(** A page with a Windows line ending, a form feed and runs of blanks. *)
Definition settled_page : str :=
  lit "Warm  up first." ++ [CR; LF] ++ lit "  Then squat. " ++ [FF]
  ++ lit "Rest" ++ [TAB; TAB] ++ lit "two minutes.".

(** ** Vocabulary of the further properties *)

(** A text of whitespace only. *)
Definition blank_text (l : str) : Prop := Forall (fun c => is_space c = true) l.

(** The buffer of the loop is always the result of a [strip]. *)
Definition stripped_or_empty (l : str) : Prop :=
  l = [] \/ (starts_nonspace l /\ ends_nonspace l).

(** [p] occurs in [c] as a whole. *)
Definition contains (c p : str) : Prop := exists a b, c = a ++ p ++ b.

(** The paragraph is in a closed chunk or in the buffer. *)
Definition held (b : str) (st : list str * str) : Prop :=
  (exists c, In c (fst st) /\ contains c b) \/ contains (snd st) b.

Section RunVocabulary.

Context {Vec : Type}.

(** What every turn of the loop over the batches keeps: the table is the
    rows of the other sources followed by rows of the source; the open
    transaction holds rows of the source; every row written was counted. *)
Definition run_inv (s : str) (base : list (KnowledgeChunk Vec)) (bound : nat)
    (st : Db Vec * nat * nat) : Prop :=
  let '(conn, stored, skipped) := st in
  exists new,
    table conn = base ++ new
    /\ Forall (fun row => of_source s row = true) new
    /\ Forall (fun row => of_source s row = true) (txn conn)
    /\ length new + length (txn conn) = stored
    /\ stored <= bound /\ skipped <= bound.

End RunVocabulary.

(** A row of another source. *)
Definition ace_row : KnowledgeChunk nat :=
  {| id := []; source := lit "ACE"; chapter := None; content := lit "kept";
     embedding := 0; tokenCount := 1; createdAt := [] |}.

(** A store with rows of two sources. *)
Definition db_two_sources : Db nat :=
  {| table := [ace_row; old_row; ace_row]; txn := []; ops := [] |}.

(** A document of two pages without text. *)
Definition blank_pages : list str := [[SP; LF; TAB]; [FF; LF]].

(** Its environment; the service would answer every request. *)
Definition blank_env : Env nat :=
  {| pdf_pages := fun _ => Some blank_pages;
     load_api_key := Some (lit "sk-test");
     openai_embeddings :=
       fun _ _ texts => Some (indexed (map (@List.length ascii) texts));
     insert_raises := fun _ _ _ => false;
     uuid4 := fun _ _ _ => [];
     datetime_now := fun _ _ _ => [] |}.

(** A document of [n] chunks and a service that fails on every request. *)
Definition down_env (n : nat) : Env nat :=
  {| pdf_pages := fun _ => Some [demo_page n];
     load_api_key := Some (lit "sk-test");
     openai_embeddings := fun _ _ _ => None;
     insert_raises := fun _ _ _ => false;
     uuid4 := fun _ _ _ => [];
     datetime_now := fun _ _ _ => [] |}.

(** A service that answers every request with one item. *)
Definition one_item_env (n : nat) : Env nat :=
  {| pdf_pages := fun _ => Some [demo_page n];
     load_api_key := Some (lit "sk-test");
     openai_embeddings :=
       fun _ _ _ => Some [ {| item_index := 0; item_embedding := 7 |} ];
     insert_raises := fun _ _ _ => false;
     uuid4 := fun _ _ _ => [];
     datetime_now := fun _ _ _ => [] |}.

(** A file whose lines end with a line feed. *)
Definition unlines (lines : list str) : str :=
  List.concat (map (fun line => line ++ [LF]) lines).

(** A line holds no line boundary. *)
Definition no_linebreak (line : str) : Prop :=
  Forall (fun c => is_linebreak c = false) line.

(** A value that [load_api_key] returns as it is written: not empty, and
    neither its first nor its last character is whitespace or a quote. *)
Definition key_char (c : ascii) : Prop :=
  is_space c = false /\ c <> DQUOTE /\ c <> SQUOTE.

(** Such a key, on one line. *)
Definition plain_key (k : str) : Prop :=
  no_linebreak k
  /\ (exists c m, k = c :: m /\ key_char c)
  /\ (exists init z, k = init ++ [z] /\ key_char z).

(** A file with a comment, another variable, the key between double quotes
    and a last line. *)
Definition dotenv_before : list str := [lit "# secrets"; lit "DEBUG=1"].
Definition dotenv_key : str := lit "sk-abc123".

(** * Properties *)

(** ** Character and list facts *)

Lemma ascii_eqb_true (a b : ascii) : Ascii.eqb a b = true <-> a = b.
Proof. apply Ascii.eqb_eq. Qed.

Lemma ascii_eqb_false (a b : ascii) : Ascii.eqb a b = false <-> a <> b.
Proof. apply Ascii.eqb_neq. Qed.

Lemma str_eqb_true (a b : str) : str_eqb a b = true <-> a = b.
Proof.
  revert b. induction a as [|x a IH]; intros [|y b]; simpl;
    try (split; [reflexivity|reflexivity]); try (split; discriminate).
  destruct (Ascii.eqb x y) eqn:E.
  - apply ascii_eqb_true in E. subst y. rewrite IH. split; congruence.
  - apply ascii_eqb_false in E. split; [discriminate|congruence].
Qed.

Lemma nonempty_true (l : str) : nonempty l = true <-> l <> [].
Proof. destruct l; simpl; split; congruence. Qed.

Lemma firstn_add {A} (a b : nat) (l : list A) :
  firstn (a + b) l = firstn a l ++ firstn b (skipn a l).
Proof.
  revert l. induction a as [|a IH]; intros l; simpl; [reflexivity|].
  destruct l as [|x l]; simpl.
  - now rewrite firstn_nil.
  - now rewrite IH.
Qed.

(** ** The size of the chunks *)

(** C6: whatever the text, every chunk returned by [split_into_chunks] has
    at least [MIN_CHUNK_CHARS] (200) characters; this is the filter of the
    [return] statement, so it also holds of chunks longer than the target. *)
Theorem split_into_chunks_min_chars (text : str) :
  Forall (fun c => MIN_CHUNK_CHARS <= length c) (split_into_chunks text).
Proof.
  apply Forall_forall. intros c Hc. unfold split_into_chunks in Hc.
  apply filter_In in Hc. destruct Hc as [_ Hc]. now apply Nat.leb_le.
Qed.

(** A paragraph longer than the target is one chunk. *)
Example oversized_paragraph_is_one_chunk :
  map (@List.length ascii) (split_into_chunks (rep 2500 "y")) = [2500]
  /\ CHUNK_TARGET_CHARS < 2500.
Proof. split; [vm_compute; reflexivity | unfold CHUNK_TARGET_CHARS; lia]. Qed.

(** ** The heading *)

Lemma endswith_period_true (t : str) :
  endswith_period t = true <-> exists p, t = p ++ ["."%char].
Proof.
  unfold endswith_period. rewrite ascii_eqb_true. split.
  - intros H. destruct t as [|c r]; [discriminate|].
    exists (removelast (c :: r)). rewrite <- H.
    apply app_removelast_last. discriminate.
  - intros [p ->]. apply last_last.
Qed.

Lemma heading_ok_qualifies (t : str) : heading_ok t = true <-> qualifies t.
Proof.
  unfold heading_ok, qualifies.
  rewrite !andb_true_iff, orb_true_iff, andb_true_iff, negb_true_iff.
  rewrite !Nat.leb_le, Nat.ltb_lt, Nat.eqb_eq.
  split.
  - intros [[[[H1 H2] H3] H4] H5].
    split; [lia|]. split; [|split; [|assumption]].
    + intros p Hp.
      assert (endswith_period t = true) as E
        by (apply endswith_period_true; now exists p).
      congruence.
    + destruct t as [|c r]; [discriminate|]. now exists c, r.
  - intros [[H1 H2] [H3 [[c [r [-> Hc]]] H5]]].
    split; [|assumption].
    split; [split; [split; [assumption|assumption]|]|assumption].
    destruct (endswith_period (c :: r)) eqn:E; [|reflexivity].
    apply endswith_period_true in E. destruct E as [p Hp].
    exfalso. exact (H3 p Hp).
Qed.

Lemma first_heading_spec (ls : list str) :
  match first_heading ls with
  | Some t =>
      exists i line,
        nth_error ls i = Some line /\ t = strip line /\ qualifies t
        /\ forall j line', j < i -> nth_error ls j = Some line' ->
                           ~ qualifies (strip line')
  | None =>
      forall i line, nth_error ls i = Some line -> ~ qualifies (strip line)
  end.
Proof.
  induction ls as [|l0 ls IH]; simpl.
  - intros [|i] line H; discriminate.
  - destruct (heading_ok (strip l0)) eqn:E.
    + exists 0, l0.
      split; [reflexivity|]. split; [reflexivity|].
      split; [now apply heading_ok_qualifies|].
      intros j line' Hj. lia.
    + assert (~ qualifies (strip l0)) as N.
      { intros Q. apply heading_ok_qualifies in Q. congruence. }
      destruct (first_heading ls) as [t|].
      * destruct IH as [i [line [H1 [H2 [H3 H4]]]]].
        exists (S i), line.
        split; [assumption|]. split; [assumption|]. split; [assumption|].
        intros [|j] line' Hj Hn; simpl in Hn.
        -- now inversion Hn; subst.
        -- apply (H4 j); [lia | assumption].
      * intros [|i] line Hn; simpl in Hn.
        -- now inversion Hn; subst.
        -- now apply (IH i).
  Qed.

Lemma nth_error_firstn_lt {A} (n i : nat) (l : list A) :
  i < n -> nth_error (firstn n l) i = nth_error l i.
Proof.
  revert i l. induction n as [|n IH]; intros i l Hi; [lia|].
  destruct l as [|x l]; [reflexivity|].
  destruct i as [|i]; simpl; [reflexivity|]. apply IH. lia.
Qed.

Lemma nth_error_firstn_some {A} (n i : nat) (l : list A) (x : A) :
  nth_error (firstn n l) i = Some x -> i < n /\ nth_error l i = Some x.
Proof.
  intros H.
  assert (i < n) as Hi.
  { assert (i < length (firstn n l)) as Hl
      by (apply nth_error_Some; congruence).
    rewrite length_firstn in Hl. lia. }
  split; [assumption|]. now rewrite <- (@nth_error_firstn_lt A n i l Hi).
Qed.

(** C7: [extract_heading] looks at the first six lines only and returns the
    first stripped line [t] with [3 <= len(t) <= 80], no final period, an
    uppercase first character, and two words or more or one word of more than
    five characters; it returns [None] when none of these lines is such. *)
Theorem extract_heading_first_qualifying_line (text : str) :
  match extract_heading text with
  | Some t =>
      exists i line,
        i < 6 /\ nth_error (split_nl text) i = Some line
        /\ t = strip line /\ qualifies t
        /\ forall j line', j < i -> nth_error (split_nl text) j = Some line' ->
                           ~ qualifies (strip line')
  | None =>
      forall i line, i < 6 -> nth_error (split_nl text) i = Some line ->
                     ~ qualifies (strip line)
  end.
Proof.
  unfold extract_heading.
  pose proof (first_heading_spec (firstn 6 (split_nl text))) as H.
  destruct (first_heading (firstn 6 (split_nl text))) as [t|].
  - destruct H as [i [line [H1 [H2 [H3 H4]]]]].
    apply nth_error_firstn_some in H1. destruct H1 as [Hi H1].
    exists i, line.
    split; [assumption|]. split; [assumption|].
    split; [assumption|]. split; [assumption|].
    intros j line' Hj Hn. apply (H4 j line' Hj).
    rewrite nth_error_firstn_lt; [assumption | lia].
  - intros i line Hi Hn. apply (H i line).
    now rewrite nth_error_firstn_lt.
Qed.

(** A heading on the seventh line is not seen. *)
Example heading_on_line_seven_is_ignored :
  extract_heading (text_of [blank; blank; blank; blank; blank; blank; "Big Title here"]) = None
  /\ extract_heading (text_of [blank; "intro."; "Big Title here"])
     = Some (lit "Big Title here").
Proof. split; vm_compute; reflexivity. Qed.

(** ** The overlap *)

Lemma find_space_first (pre post : str) :
  ~ In SP pre -> find_space (pre ++ SP :: post) = Some (length pre).
Proof.
  induction pre as [|c pre IH]; intros H; simpl.
  - reflexivity.
  - destruct (Ascii.eqb c SP) eqn:E.
    + apply ascii_eqb_true in E. exfalso. apply H. now left.
    + rewrite IH; [reflexivity|]. intros K. apply H. now right.
Qed.

Lemma find_space_none (l : str) : find_space l = None <-> ~ In SP l.
Proof.
  induction l as [|c l IH]; simpl.
  - split; [intros _ []|reflexivity].
  - destruct (Ascii.eqb c SP) eqn:E.
    + apply ascii_eqb_true in E. split; [discriminate|].
      intros H. exfalso. apply H. left. congruence.
    + apply ascii_eqb_false in E.
      destruct (find_space l) as [i|]; simpl.
      * split; [discriminate|]. intros H. exfalso.
        destruct IH as [IH1 IH2].
        assert (@None nat = None -> False) as K.
        { intros _. assert (Some i = None) as C; [|discriminate].
          apply IH2. intros K. apply H. now right. }
        now apply K.
      * split; [|reflexivity]. intros _ [K|K]; [congruence|].
        now apply IH.
Qed.

Lemma find_space_some (l : str) (i : nat) :
  find_space l = Some i ->
  exists pre post, l = pre ++ SP :: post /\ length pre = i /\ ~ In SP pre.
Proof.
  revert i. induction l as [|c l IH]; intros i H; simpl in H; [discriminate|].
  destruct (Ascii.eqb c SP) eqn:E.
  - apply ascii_eqb_true in E. inversion H; subst.
    exists [], l. repeat split. intros [].
  - apply ascii_eqb_false in E.
    destruct (find_space l) as [k|]; [|discriminate].
    simpl in H. inversion H; subst.
    destruct (IH k eq_refl) as [pre [post [-> [Hl Hn]]]].
    exists (c :: pre), post. simpl. repeat split; [congruence|].
    intros [K|K]; [congruence|contradiction].
Qed.

Lemma skipn_past_prefix (pre post : str) :
  skipn (length pre + 1) (pre ++ SP :: post) = post.
Proof.
  induction pre as [|c pre IH]; simpl; [reflexivity|assumption].
Qed.

(** The overlap when the tail has a space, and when it has none. *)
Lemma overlap_of_after_first_space (current pre post : str) :
  last_chars CHUNK_OVERLAP_CHARS current = pre ++ SP :: post ->
  ~ In SP pre -> overlap_of current = post.
Proof.
  intros Ht Hp. unfold overlap_of. rewrite Ht.
  rewrite (find_space_first pre post Hp). apply skipn_past_prefix.
Qed.

Lemma overlap_of_no_space (current : str) :
  ~ In SP (last_chars CHUNK_OVERLAP_CHARS current) ->
  overlap_of current = last_chars CHUNK_OVERLAP_CHARS current.
Proof.
  intros H. unfold overlap_of.
  now rewrite (proj2 (find_space_none _) H).
Qed.

(** C10: when a chunk is closed (the candidate is longer than the target and
    [current] is not empty), the next buffer starts from the overlap of
    [current].  With [tail] the last 320 characters of [current]: if [tail]
    has a space, the overlap is what follows the first space of [tail],
    wherever [tail] begins; if [tail] has no space, the overlap is [tail]. *)
Theorem closing_a_chunk_seeds_the_overlap
    (chunks : list str) (current para : str) :
  strip para <> [] ->
  current <> [] ->
  CHUNK_TARGET_CHARS < length (strip (current ++ [LF; LF] ++ strip para)) ->
  let tail := last_chars CHUNK_OVERLAP_CHARS current in
  chunk_step (chunks, current) para
  = (chunks ++ [strip current],
     strip (overlap_of current ++ [LF; LF] ++ strip para))
  /\ (forall pre post, tail = pre ++ SP :: post -> ~ In SP pre ->
                       overlap_of current = post)
  /\ (~ In SP tail -> overlap_of current = tail).
Proof.
  intros Hp Hc Hlen tail. split; [|split].
  - unfold chunk_step.
    apply nonempty_true in Hp. apply nonempty_true in Hc.
    rewrite Hp, Hc. apply Nat.ltb_lt in Hlen. rewrite Hlen. reflexivity.
  - intros pre post Ht Hn. now apply (overlap_of_after_first_space current pre post Ht).
  - apply overlap_of_no_space.
Qed.

Lemma closing_a_chunk_seeds_the_overlap_witness :
  chunk_step ([], rep 2399 "x") (lit "yy")
  = ([strip (rep 2399 "x")],
     strip (overlap_of (rep 2399 "x") ++ [LF; LF] ++ strip (lit "yy")))
  /\ overlap_of (rep 2399 "x") = rep 320 "x".
Proof.
  assert (strip (lit "yy") <> []) as H1 by (vm_compute; discriminate).
  assert (rep 2399 "x" <> []) as H2 by (vm_compute; discriminate).
  assert (CHUNK_TARGET_CHARS
          < length (strip (rep 2399 "x" ++ [LF; LF] ++ strip (lit "yy")))) as H3
    by (apply Nat.ltb_lt; vm_compute; reflexivity).
  destruct (closing_a_chunk_seeds_the_overlap [] (rep 2399 "x") (lit "yy") H1 H2 H3)
    as [A [_ C]].
  split; [exact A|].
  transitivity (last_chars CHUNK_OVERLAP_CHARS (rep 2399 "x")).
  - apply C. apply find_space_none. vm_compute. reflexivity.
  - vm_compute. reflexivity.
Defined.

(** The first word of the tail goes even when the tail starts a word; a tail
    without space is kept from the middle of its word. *)
Example overlap_drops_first_word_of_tail :
  overlap_of (lit "squat bench deadlift") = lit "bench deadlift".
Proof. vm_compute. reflexivity. Qed.

Example overlap_without_space_is_raw_tail :
  overlap_of (rep 400 "x") = rep 320 "x".
Proof. vm_compute. reflexivity. Qed.

(** ** Preview mode *)

Section PreviewMode.

Context {Vec : Type}.
Variable env : Env Vec.

Lemma ingest_source_dry_run (cfg : SourceCfg) (key : str) (db : Db Vec) :
  fst (ingest_source env cfg key true db) = db.
Proof.
  unfold ingest_source. destruct (pdf_pages env (cfg_file cfg)); reflexivity.
Qed.

Lemma ingest_all_dry_run (sources : list SourceCfg) (key : str)
    (db : Db Vec) :
  fst (ingest_all env sources key true db) = db.
Proof.
  revert db. induction sources as [|cfg rest IH]; intros db; simpl.
  - reflexivity.
  - pose proof (ingest_source_dry_run cfg key db) as H1.
    destruct (ingest_source env cfg key true db) as [db1 o]. simpl in H1.
    subst db1. pose proof (IH db) as H2.
    destruct (ingest_all env rest key true db) as [db2 os]. exact H2.
Qed.

(** C8: in preview mode a call of [ingest_source] returns the store as it
    got it: no row is changed and no statement is run ([ops] is the same).
    [main] in preview mode reads no key: whatever [.env] holds, it either
    stops on an unknown source or ends with the store unchanged. *)
Theorem dry_run_never_touches_the_store :
  (forall cfg key db, fst (ingest_source env cfg key true db) = db)
  /\ (forall arg db,
        main env arg true db = Exit1
        \/ exists report, main env arg true db = Done db report None).
Proof.
  split; [apply ingest_source_dry_run|].
  intros arg db. unfold main.
  set (selected := match arg with
                   | Some ((_ :: _) as name) =>
                       Some (filter (fun c => str_eqb (cfg_source c) name)
                                    PDF_SOURCES)
                   | _ => None
                   end).
  destruct selected as [[|c l]|].
  - now left.
  - right.
    pose proof (ingest_all_dry_run (c :: l) [] db) as H.
    destruct (ingest_all env (c :: l) [] true db) as [db1 report].
    simpl in H. subst db1. now exists report.
  - right.
    pose proof (ingest_all_dry_run PDF_SOURCES [] db) as H.
    destruct (ingest_all env PDF_SOURCES [] true db) as [db1 report].
    simpl in H. subst db1. now exists report.
Qed.

End PreviewMode.

(** ** The order of the embeddings *)

Section EmbeddingOrder.

Context {Vec : Type}.

Lemma insert_item_perm (x : Item Vec) (l : list (Item Vec)) :
  Permutation (x :: l) (insert_item x l).
Proof.
  induction l as [|y r IH]; simpl.
  - apply Permutation_refl.
  - destruct (item_index x <=? item_index y)%Z.
    + apply Permutation_refl.
    + eapply perm_trans; [apply perm_swap|]. now apply perm_skip.
Qed.

Lemma sorted_by_index_perm (l : list (Item Vec)) :
  Permutation l (sorted_by_index l).
Proof.
  induction l as [|x l IH]; simpl.
  - apply perm_nil.
  - eapply perm_trans; [|apply insert_item_perm]. now apply perm_skip.
Qed.

Lemma insert_item_sorted (x : Item Vec) (l : list (Item Vec)) :
  StronglySorted index_le l -> StronglySorted index_le (insert_item x l).
Proof.
  induction l as [|y r IH]; intros Hs; simpl.
  - constructor; constructor.
  - inversion Hs as [|? ? Hr Hy]; subst.
    destruct (item_index x <=? item_index y)%Z eqn:E.
    + apply Z.leb_le in E. constructor; [assumption|].
      constructor; [exact E|].
      eapply Forall_impl; [|exact Hy].
      intros a Ha. unfold index_le in *. lia.
    + apply Z.leb_gt in E. constructor; [now apply IH|].
      apply (Permutation_Forall (insert_item_perm x r)).
      constructor; [unfold index_le; lia | assumption].
Qed.

Lemma sorted_by_index_sorted (l : list (Item Vec)) :
  StronglySorted index_le (sorted_by_index l).
Proof.
  induction l as [|x l IH]; simpl.
  - constructor.
  - now apply insert_item_sorted.
Qed.

(** A list sorted by index is the only sorted arrangement of its items when
    their indices are pairwise distinct. *)
Lemma sorted_arrangement_unique (l l' : list (Item Vec)) :
  Permutation l l' ->
  StronglySorted index_le l -> StronglySorted index_lt l' -> l = l'.
Proof.
  revert l'. induction l as [|a l IH]; intros l' Hp Hl Hl'.
  - apply Permutation_nil in Hp. now subst.
  - destruct l' as [|b l'].
    + apply Permutation_sym, Permutation_nil in Hp. discriminate.
    + inversion Hl as [|? ? Hl1 Ha]; subst.
      inversion Hl' as [|? ? Hl1' Hb]; subst.
      assert (a = b) as E.
      { assert (In a (b :: l')) as Ia
          by (apply (Permutation_in a Hp); now left).
        assert (In b (a :: l)) as Ib
          by (apply (Permutation_in b (Permutation_sym Hp)); now left).
        destruct Ia as [Ia|Ia]; [now symmetry|].
        destruct Ib as [Ib|Ib]; [assumption|].
        rewrite Forall_forall in Ha, Hb.
        specialize (Ha b Ib). specialize (Hb a Ia).
        unfold index_le, index_lt in *. lia. }
      subst b. f_equal. apply IH; try assumption.
      now apply Permutation_cons_inv in Hp.
Qed.

Lemma indexed_from_bound (i : Z) (vs : list Vec) :
  Forall (fun x => (i <= item_index x)%Z) (indexed_from i vs).
Proof.
  revert i. induction vs as [|v r IH]; intros i; simpl; constructor.
  - simpl. lia.
  - eapply Forall_impl; [|apply (IH (i + 1)%Z)]. intros a Ha. simpl in Ha. lia.
Qed.

Lemma indexed_from_sorted (i : Z) (vs : list Vec) :
  StronglySorted index_lt (indexed_from i vs).
Proof.
  revert i. induction vs as [|v r IH]; intros i; simpl; constructor.
  - apply IH.
  - eapply Forall_impl; [|apply (indexed_from_bound (i + 1) r)].
    intros a Ha. unfold index_lt. simpl in *. lia.
Qed.

Lemma indexed_from_embeddings (i : Z) (vs : list Vec) :
  map (@item_embedding Vec) (indexed_from i vs) = vs.
Proof.
  revert i. induction vs as [|v r IH]; intros i; simpl; [reflexivity|].
  now rewrite IH.
Qed.

Lemma sorted_by_index_of_permutation (data : list (Item Vec))
    (vs : list Vec) :
  Permutation data (indexed vs) -> sorted_by_index data = indexed vs.
Proof.
  intros Hp. apply sorted_arrangement_unique.
  - eapply perm_trans; [|exact Hp].
    apply Permutation_sym, sorted_by_index_perm.
  - apply sorted_by_index_sorted.
  - apply indexed_from_sorted.
Qed.

(** C4: a batch [texts] of [k] chunks is sent, [vs] are the [k] vectors
    computed for them, and the service answers with the items
    [(i, vs[i])], [i = 0..k-1], in any order.  Then [embed_batch] returns
    [vs] in the order of the request, so that zipping the batch with the
    result pairs every chunk with its own vector. *)
Theorem embed_batch_restores_request_order
    (env : Env Vec) (api_key : str) (batch_idx : nat)
    (texts : list str) (vs : list Vec) (data : list (Item Vec)) :
  length vs = length texts ->
  Permutation data (indexed vs) ->
  openai_embeddings env api_key batch_idx texts = Some data ->
  embed_batch env batch_idx texts api_key = Some vs
  /\ (forall embeddings,
        embed_batch env batch_idx texts api_key = Some embeddings ->
        combine texts embeddings = combine texts vs)
  /\ length (combine texts vs) = length texts.
Proof.
  intros Hlen Hp Hr.
  assert (embed_batch env batch_idx texts api_key = Some vs) as E.
  { unfold embed_batch. rewrite Hr.
    rewrite (sorted_by_index_of_permutation data vs Hp).
    unfold indexed. now rewrite indexed_from_embeddings. }
  split; [exact E|]. split.
  - intros embeddings He. rewrite E in He. now inversion He.
  - rewrite length_combine. lia.
Qed.

End EmbeddingOrder.

Lemma embed_batch_restores_request_order_witness :
  embed_batch shuffling_env 0 [lit "a"; lit "b"; lit "c"] (lit "sk-test")
  = Some [10; 20; 30].
Proof.
  refine (proj1 (embed_batch_restores_request_order shuffling_env
                   (lit "sk-test") 0 [lit "a"; lit "b"; lit "c"]
                   [10; 20; 30] shuffled_answer eq_refl _ eq_refl)).
  unfold shuffled_answer, indexed. simpl.
  eapply perm_trans; [apply perm_swap|].
  apply perm_skip. apply perm_swap.
Defined.

(** ** Live ingestion *)

Section LiveIngestion.

Context {Vec : Type}.
Variable env : Env Vec.

Lemma writes_only_app (w1 w2 : list DbOp) :
  writes_only w1 -> writes_only w2 -> writes_only (w1 ++ w2).
Proof. intros H1 H2. apply Forall_app. now split. Qed.

Lemma map_fst_combine_same {A B} (l : list A) (l' : list B) :
  length l = length l' -> map fst (combine l l') = l.
Proof.
  revert l'. induction l as [|a l IH]; intros [|b l'] H; simpl in *;
    try reflexivity; try discriminate.
  f_equal. apply IH. now inversion H.
Qed.

Lemma filter_none_left {A} (p : A -> bool) (l : list A) :
  length (filter p l) = 0 -> filter (fun x => negb (p x)) l = l.
Proof.
  induction l as [|a l IH]; simpl; [reflexivity|].
  destruct (p a); simpl; [discriminate|]. intros H. now rewrite IH.
Qed.

Lemma filter_negb_none {A} (p : A -> bool) (l : list A) :
  filter p (filter (fun x => negb (p x)) l) = [].
Proof.
  induction l as [|a l IH]; simpl; [reflexivity|].
  destruct (p a) eqn:E; simpl; [assumption|]. now rewrite E.
Qed.

Lemma filter_negb_idem {A} (p : A -> bool) (l : list A) :
  filter (fun x => negb (p x)) (filter (fun x => negb (p x)) l)
  = filter (fun x => negb (p x)) l.
Proof.
  induction l as [|a l IH]; simpl; [reflexivity|].
  destruct (p a) eqn:E; simpl; [assumption|]. rewrite E. simpl. now rewrite IH.
Qed.

Lemma filter_all {A} (p : A -> bool) (l : list A) :
  Forall (fun x => p x = true) l -> filter p l = l.
Proof.
  induction 1 as [|a l Ha _ IH]; simpl; [reflexivity|]. now rewrite Ha, IH.
Qed.

Lemma filter_negb_all {A} (p : A -> bool) (l : list A) :
  Forall (fun x => p x = true) l -> filter (fun x => negb (p x)) l = [].
Proof.
  induction 1 as [|a l Ha _ IH]; simpl; [reflexivity|]. now rewrite Ha.
Qed.

(** The inner loop when no [INSERT] raises. *)
Lemma insert_pairs_all (s : str) (batch_idx : nat)
    (pairs : list (str * Vec)) :
  (forall j, insert_raises env s batch_idx j = false) ->
  forall (j : nat) (conn : Db Vec) (stored : nat),
  exists conn' rows w,
    insert_pairs env s batch_idx j pairs conn stored
    = (conn', stored + length pairs, true)
    /\ table conn' = table conn
    /\ txn conn' = txn conn ++ rows
    /\ map (@content Vec) rows = map fst pairs
    /\ Forall (fun row => of_source s row = true) rows
    /\ ops conn' = ops conn ++ w /\ writes_only w.
Proof.
  intros Hok. induction pairs as [|[text e] rest IH]; intros j conn stored.
  - exists conn, [], []. simpl. rewrite Nat.add_0_r, !app_nil_r.
    repeat split; constructor.
  - simpl. unfold db_insert_chunk. rewrite (Hok j).
    match goal with
    | |- context [insert_pairs env s batch_idx (S j) rest ?c (S stored)] =>
        destruct (IH (S j) c (S stored))
          as [conn' [rows [w [E [Ht [Hx [Hc [Hs [Ho Hw]]]]]]]]]
    end.
    simpl in Ht, Hx, Ho.
    eexists conn', (_ :: rows), (OpInsert :: w).
    split; [rewrite E; f_equal; f_equal; lia|].
    split; [exact Ht|].
    split; [rewrite Hx, <- app_assoc; reflexivity|].
    split; [simpl; now rewrite Hc|].
    split; [constructor; [apply str_eqb_true; reflexivity|exact Hs]|].
    split; [rewrite Ho, <- app_assoc; reflexivity|].
    constructor; [now left|exact Hw].
Qed.

(** One batch of a run without failure. *)
Lemma batch_step_all (s api_key : str) (chunks : list str)
    (conn : Db Vec) (stored skipped batch_idx : nat) :
  run_succeeds env s api_key chunks ->
  txn conn = [] ->
  exists conn' rows w,
    batch_step env s api_key chunks (conn, stored, skipped) batch_idx
    = (conn', stored + length (batch_at chunks batch_idx), skipped)
    /\ table conn' = table conn ++ rows
    /\ txn conn' = []
    /\ map (@content Vec) rows = batch_at chunks batch_idx
    /\ Forall (fun row => of_source s row = true) rows
    /\ ops conn' = ops conn ++ w /\ writes_only w.
Proof.
  intros [Hins Hreq] Htx.
  destruct (Hreq batch_idx) as [data [Hd Hlen]].
  unfold batch_step, embed_batch. fold (batch_at chunks batch_idx). rewrite Hd.
  set (batch := batch_at chunks batch_idx) in *.
  set (embeddings := map (@item_embedding Vec) (sorted_by_index data)).
  assert (length batch = length embeddings) as Hl.
  { unfold embeddings. rewrite length_map.
    rewrite <- (Permutation_length (sorted_by_index_perm data)). now symmetry. }
  destruct (insert_pairs_all s batch_idx (combine batch embeddings)
              (Hins batch_idx) 0 conn stored)
    as [conn' [rows [w [E [Ht [Hx [Hc [Hs [Ho Hw]]]]]]]]].
  rewrite E. rewrite length_combine, <- Hl, Nat.min_id.
  exists (conn_commit conn'), rows, (w ++ [OpCommit]).
  split; [reflexivity|]. simpl.
  split; [now rewrite Ht, Hx, Htx|].
  split; [reflexivity|].
  split; [rewrite Hc; now apply map_fst_combine_same|].
  split; [exact Hs|].
  split; [rewrite Ho, <- app_assoc; reflexivity|].
  apply writes_only_app; [exact Hw|]. constructor; [now right|constructor].
Qed.

(** The loop over the first [n] batches of a run without failure. *)
Lemma batches_all (s api_key : str) (chunks : list str) (conn : Db Vec) :
  run_succeeds env s api_key chunks ->
  txn conn = [] ->
  forall n,
  exists conn' rows w,
    fold_left (batch_step env s api_key chunks)
              (map (fun k => k * EMBED_BATCH_SIZE) (seq 0 n)) (conn, 0, 0)
    = (conn', length rows, 0)
    /\ table conn' = table conn ++ rows
    /\ txn conn' = []
    /\ map (@content Vec) rows = firstn (n * EMBED_BATCH_SIZE) chunks
    /\ Forall (fun row => of_source s row = true) rows
    /\ ops conn' = ops conn ++ w /\ writes_only w.
Proof.
  intros Hrun Htx. induction n as [|n IH].
  - exists conn, [], []. simpl. rewrite !app_nil_r.
    repeat split; try assumption; constructor.
  - destruct IH as [c1 [r1 [w1 [E1 [Ht1 [Hx1 [Hc1 [Hs1 [Ho1 Hw1]]]]]]]]].
    rewrite seq_S, map_app, fold_left_app, E1.
    cbn [map fold_left Nat.add].
    destruct (batch_step_all s api_key chunks c1 (length r1) 0
                (n * EMBED_BATCH_SIZE) Hrun Hx1)
      as [c2 [r2 [w2 [E2 [Ht2 [Hx2 [Hc2 [Hs2 [Ho2 Hw2]]]]]]]]].
    exists c2, (r1 ++ r2), (w1 ++ w2).
    split.
    { rewrite E2. f_equal. f_equal. rewrite length_app. f_equal.
      rewrite <- Hc2. now rewrite length_map. }
    split; [rewrite Ht2, Ht1, <- app_assoc; reflexivity|].
    split; [exact Hx2|].
    split.
    { rewrite map_app, Hc1, Hc2. unfold batch_at.
      replace (S n * EMBED_BATCH_SIZE)
        with (n * EMBED_BATCH_SIZE + EMBED_BATCH_SIZE) by lia.
      symmetry. apply firstn_add. }
    split; [apply Forall_app; now split|].
    split; [rewrite Ho2, Ho1, <- app_assoc; reflexivity|].
    now apply writes_only_app.
Qed.

Lemma range_step_covers (total : nat) :
  total <= (total + EMBED_BATCH_SIZE - 1) / EMBED_BATCH_SIZE * EMBED_BATCH_SIZE.
Proof.
  unfold EMBED_BATCH_SIZE.
  pose proof (Nat.div_mod_eq (total + 20 - 1) 20) as H.
  pose proof (Nat.mod_upper_bound (total + 20 - 1) 20) as B.
  lia.
Qed.

Lemma after_delete_spec (s : str) (db : Db Vec) :
  table (after_delete s db) = other_rows s db
  /\ txn (after_delete s db) = []
  /\ exists w, ops (after_delete s db) = ops db ++ w
               /\ Forall (fun op => op <> OpInsert) w.
Proof.
  unfold after_delete, db_count, db_delete_source, conn_commit, db_connect,
    visible, logged, other_rows.
  cbn [table txn ops fst]. rewrite !app_nil_r.
  destruct (0 <? _) eqn:E; cbn [table txn ops fst].
  - split; [reflexivity|]. split; [reflexivity|].
    exists [OpConnect; OpSelect; OpDelete; OpCommit].
    split; [now rewrite <- !app_assoc|].
    repeat constructor; discriminate.
  - apply Nat.ltb_ge in E.
    split.
    + destruct (nonempty s).
      * symmetry. apply filter_none_left. lia.
      * destruct (table db); [reflexivity|simpl in E; lia].
    + split; [reflexivity|].
      exists [OpConnect; OpSelect]. split; [now rewrite <- !app_assoc|].
      repeat constructor; discriminate.
Qed.

Lemma store_chunks_unfold (s api_key : str) (chunks : list str) (db : Db Vec) :
  store_chunks env s api_key chunks db
  = let '(conn, stored, skipped) :=
      fold_left (batch_step env s api_key chunks)
                (range_step (length chunks) EMBED_BATCH_SIZE)
                (after_delete s db, 0, 0) in
    (conn_close conn, Complete stored skipped).
Proof.
  unfold store_chunks, after_delete.
  destruct (db_count (db_connect db) s) as [conn existing]. reflexivity.
Qed.

(** A live run without failure: the old rows of the source are deleted
    before the first [INSERT], and one row per chunk is committed. *)
Lemma store_chunks_all (s api_key : str) (chunks : list str) (db : Db Vec) :
  run_succeeds env s api_key chunks ->
  exists new w1 w2,
    store_chunks env s api_key chunks db
    = ({| table := other_rows s db ++ new; txn := [];
          ops := ops db ++ w1 ++ w2 ++ [OpClose] |},
       Complete (length chunks) 0)
    /\ map (@content Vec) new = chunks
    /\ Forall (fun row => of_source s row = true) new
    /\ Forall (fun op => op <> OpInsert) w1
    /\ writes_only w2.
Proof.
  intros Hrun. rewrite store_chunks_unfold.
  destruct (after_delete_spec s db) as [Ht [Hx [w1 [Ho Hw1]]]].
  destruct (batches_all s api_key chunks (after_delete s db) Hrun Hx
              ((length chunks + EMBED_BATCH_SIZE - 1) / EMBED_BATCH_SIZE))
    as [c [rows [w2 [E [Htc [Hxc [Hc [Hs [Hoc Hw2]]]]]]]]].
  unfold range_step. rewrite E.
  rewrite firstn_all2 in Hc by apply range_step_covers.
  exists rows, w1, w2.
  split.
  - f_equal.
    + unfold conn_close, logged. simpl.
      rewrite Htc, Ht, Hoc, Ho, <- !app_assoc. reflexivity.
    + f_equal. rewrite <- Hc. now rewrite length_map.
  - repeat split; assumption.
Qed.

Lemma rows_of_replaced (s : str) (new : list (KnowledgeChunk Vec))
    (db db' : Db Vec) :
  table db' = other_rows s db ++ new ->
  Forall (fun row => of_source s row = true) new ->
  rows_of s db' = new /\ other_rows s db' = other_rows s db.
Proof.
  intros Ht Hs. unfold rows_of, other_rows in *. rewrite Ht, !filter_app.
  rewrite filter_negb_none, filter_negb_idem.
  rewrite (filter_all _ new Hs), (filter_negb_all _ new Hs), app_nil_r.
  now split.
Qed.

(** C5: a live run of [ingest_source] that meets no failure deletes the rows
    of the source before it writes any row, and leaves in the table the rows
    of the other sources and one new row per chunk.  The number of rows of
    the source is then the number of chunks, whatever it was before (50 rows
    and 42 chunks give 42 rows), and a second run on the same document
    leaves the same number. *)
Theorem live_ingestion_replaces_the_source
    (cfg : SourceCfg) (api_key : str) (pages : list str) (db : Db Vec) :
  let s := cfg_source cfg in
  let chunks := split_into_chunks (clean_text (join [LF; LF] pages)) in
  let run := ingest_source env cfg api_key false in
  pdf_pages env (cfg_file cfg) = Some pages ->
  run_succeeds env s api_key chunks ->
  snd (run db) = Complete (length chunks) 0
  /\ (exists new w1 w2,
        table (fst (run db)) = other_rows s db ++ new
        /\ map (@content Vec) new = chunks
        /\ rows_of s (fst (run db)) = new
        /\ ops (fst (run db)) = ops db ++ w1 ++ w2 ++ [OpClose]
        /\ Forall (fun op => op <> OpInsert) w1 /\ writes_only w2)
  /\ txn (fst (run db)) = []
  /\ length (rows_of s (fst (run db))) = length chunks
  /\ (length (rows_of s db) = 50 -> length chunks = 42 ->
      length (rows_of s (fst (run db))) = 42)
  /\ length (rows_of s (fst (run (fst (run db)))))
     = length (rows_of s (fst (run db))).
Proof.
  intros s chunks run Hfile Hrun.
  assert (forall d, exists new w1 w2,
            run d = ({| table := other_rows s d ++ new; txn := [];
                        ops := ops d ++ w1 ++ w2 ++ [OpClose] |},
                     Complete (length chunks) 0)
            /\ map (@content Vec) new = chunks
            /\ rows_of s (fst (run d)) = new
            /\ Forall (fun op => op <> OpInsert) w1 /\ writes_only w2) as K.
  { intros d. unfold run, ingest_source. rewrite Hfile.
    fold chunks. fold s.
    destruct (store_chunks_all s api_key chunks d Hrun)
      as [new [w1 [w2 [E [Hc [Hs [Hw1 Hw2]]]]]]].
    exists new, w1, w2. rewrite E. cbn [fst snd].
    repeat split; try assumption.
    eapply (rows_of_replaced s new d); [reflexivity|assumption]. }
  assert (forall d, length (rows_of s (fst (run d))) = length chunks) as L.
  { intros d. destruct (K d) as [new [w1 [w2 [E [Hc [Hr _]]]]]].
    rewrite Hr, <- Hc. now rewrite length_map. }
  destruct (K db) as [new [w1 [w2 [E [Hc [Hr [Hw1 Hw2]]]]]]].
  split; [now rewrite E|].
  split.
  { exists new, w1, w2. rewrite E in Hr |- *. cbn [fst snd table ops] in *.
    repeat split; assumption. }
  split; [now rewrite E|].
  split; [apply L|].
  split; [intros _ H42; rewrite L; exact H42|].
  now rewrite !L.
Qed.

End LiveIngestion.

(** ** Two runs on a generated document *)

Lemma length_indexed_from {Vec} (i : Z) (vs : list Vec) :
  length (indexed_from i vs) = length vs.
Proof.
  revert i. induction vs as [|v r IH]; intros i; simpl; [reflexivity|].
  now rewrite IH.
Qed.

Lemma demo_env_succeeds (n : nat) (api_key : str) (chunks : list str) :
  run_succeeds (demo_env n (fun _ _ => false)) (lit "NASM") api_key chunks.
Proof.
  split; [reflexivity|]. intros batch_idx. eexists. split; [reflexivity|].
  unfold indexed. now rewrite length_indexed_from, length_map.
Qed.

Lemma live_ingestion_replaces_the_source_witness :
  length (rows_of (lit "NASM") db_with_50_rows) = 50
  /\ length (rows_of (lit "NASM")
               (fst (ingest_source (demo_env 42 (fun _ _ => false)) demo_cfg
                       (lit "sk-test") false db_with_50_rows))) = 42.
Proof.
  assert (length (rows_of (lit "NASM") db_with_50_rows) = 50) as H50
    by (vm_compute; reflexivity).
  split; [exact H50|].
  destruct (live_ingestion_replaces_the_source
              (demo_env 42 (fun _ _ => false)) demo_cfg (lit "sk-test")
              [demo_page 42] db_with_50_rows eq_refl
              (demo_env_succeeds 42 (lit "sk-test") _))
    as [_ [_ [_ [_ [H _]]]]].
  apply H; [exact H50|]. vm_compute. reflexivity.
Defined.

(** ** A batch that fails *)

(** When the request of a batch fails, the batch leaves the connection and
    [stored] as they were and all its chunks are counted as skipped. *)
Lemma batch_step_request_fails {Vec} (env : Env Vec) (s api_key : str)
    (chunks : list str) (conn : Db Vec) (stored skipped batch_idx : nat) :
  openai_embeddings env api_key batch_idx (batch_at chunks batch_idx) = None ->
  batch_step env s api_key chunks (conn, stored, skipped) batch_idx
  = (conn, stored, skipped + length (batch_at chunks batch_idx)).
Proof.
  intros H. unfold batch_step, embed_batch. fold (batch_at chunks batch_idx).
  now rewrite H.
Qed.

(** C1: a document of 21 chunks makes two batches, of 20 chunks and of one.
    The second [INSERT] of the first batch raises: the 20 chunks are counted
    as skipped and the loop goes on, but the row written before the failure
    stays in the open transaction (the [except] branch does not roll back),
    and the commit of the second batch writes it to the table.  The table
    then holds a row of the failed batch, and [stored] counts it. *)
Theorem failed_batch_row_is_committed_by_next_batch :
  let env := demo_env 21 second_insert_raises in
  let api_key := lit "sk-test" in
  let chunks := split_into_chunks (clean_text (demo_page 21)) in
  let first := batch_step env (lit "NASM") api_key chunks (empty_db, 0, 0) 0 in
  let run := ingest_source env demo_cfg api_key false empty_db in
  length chunks = 21
  /\ snd first = 20
  /\ table (fst (fst first)) = []
  /\ map (@content nat) (txn (fst (fst first))) = [nth 0 chunks []]
  /\ snd run = Complete 2 20
  /\ map (@content nat) (table (fst run)) = [nth 0 chunks []; nth 20 chunks []].
Proof.
  vm_compute. repeat split; reflexivity.
Qed.

(** ** The scenario of the specification for [clean_text] *)

Lemma in_lines_true (line text : str) :
  in_lines line text = true <-> In line (split_nl text).
Proof.
  unfold in_lines. rewrite existsb_exists. split.
  - intros [x [Hx E]]. apply str_eqb_true in E. now subst.
  - intros H. exists line. split; [assumption|]. now apply str_eqb_true.
Qed.

Lemma in_lines_false (line text : str) :
  in_lines line text = false -> ~ In line (split_nl text).
Proof.
  intros H K. apply in_lines_true in K. congruence.
Qed.

(** The scenario has no digit-only line that could be removed: its first
    line is [Page 1], and that line is kept. *)
Lemma scenario_has_no_digit_only_line : ~ scenario_as_specified.
Proof.
  intros [[line [Hd [Hin _]]] _].
  assert (forallb (fun l => negb (digit_only_line l)) (split_nl scenario)
          = true) as H by (vm_compute; reflexivity).
  rewrite forallb_forall in H. specialize (H line Hin).
  rewrite Hd in H. discriminate.
Qed.

(** C9, amended: on the input of the scenario [clean_text] removes the
    all-caps header line and nothing else.  The line [Page 1] is kept; the
    result has no digit-only line and no header line, and three line feeds
    stand where the header was. *)
Theorem scenario_normalization :
  clean_text scenario
  = text_of [ "Page 1"; blank; "Hello world."; blank; blank;
              "More body text that continues on and on..." ]
  /\ removed_by_clean_text header_line scenario
  /\ In (lit "Page 1") (split_nl (clean_text scenario))
  /\ (forall line, In line (split_nl (clean_text scenario)) ->
                   digit_only_line line = false)
  /\ (forall line, In line (split_nl scenario) ->
                   digit_only_line line = false).
Proof.
  split; [vm_compute; reflexivity|].
  split.
  { split.
    - apply in_lines_true. vm_compute. reflexivity.
    - apply in_lines_false. vm_compute. reflexivity. }
  split; [apply in_lines_true; vm_compute; reflexivity|].
  split.
  - intros line Hin.
    assert (forallb (fun l => negb (digit_only_line l))
              (split_nl (clean_text scenario)) = true) as H
      by (vm_compute; reflexivity).
    rewrite forallb_forall in H. specialize (H line Hin).
    now apply negb_true_iff in H.
  - intros line Hin.
    assert (forallb (fun l => negb (digit_only_line l)) (split_nl scenario)
            = true) as H by (vm_compute; reflexivity).
    rewrite forallb_forall in H. specialize (H line Hin).
    now apply negb_true_iff in H.
Qed.

(** ** Stripped strings *)

Lemma ends_nonspace_app (x b : str) : ends_nonspace b -> ends_nonspace (x ++ b).
Proof.
  intros [init [z [-> Hz]]]. exists (x ++ init), z.
  split; [now rewrite app_assoc|assumption].
Qed.

Lemma starts_nonspace_app (a x : str) :
  starts_nonspace a -> starts_nonspace (a ++ x).
Proof. intros [c [r [-> Hc]]]. now exists c, (r ++ x). Qed.

Lemma ends_nonspace_nonempty (l : str) : ends_nonspace l -> l <> [].
Proof. intros [init [z [-> _]]]. now destruct init. Qed.

Lemma rstrip_ends_nonspace (l : str) : ends_nonspace l -> rstrip l = l.
Proof.
  intros [init [z [-> Hz]]]. induction init as [|c init IH]; simpl.
  - now rewrite Hz.
  - rewrite IH. destruct (init ++ [z]) eqn:E; [|reflexivity].
    now destruct init.
Qed.

Lemma rstrip_result (l : str) : rstrip l = [] \/ ends_nonspace (rstrip l).
Proof.
  induction l as [|c r IH]; simpl; [now left|].
  destruct (rstrip r) as [|d r'] eqn:E.
  - destruct (is_space c) eqn:Hc; [now left|].
    right. now exists [], c.
  - right. destruct IH as [IH|IH]; [discriminate|].
    now apply (ends_nonspace_app [c]) in IH.
Qed.

Lemma rstrip_keeps_start (l : str) :
  starts_nonspace l -> starts_nonspace (rstrip l).
Proof.
  intros [c [r [-> Hc]]]. simpl. destruct (rstrip r) as [|d r'].
  - rewrite Hc. now exists c, [].
  - now exists c, (d :: r').
Qed.

Lemma lstrip_starts_nonspace (l : str) : starts_nonspace l -> lstrip l = l.
Proof. intros [c [r [-> Hc]]]. unfold lstrip. simpl. now rewrite Hc. Qed.

Lemma lstrip_result (l : str) : lstrip l = [] \/ starts_nonspace (lstrip l).
Proof.
  unfold lstrip. induction l as [|c r IH]; simpl; [now left|].
  destruct (is_space c) eqn:Hc; [assumption|]. right. now exists c, r.
Qed.

(** [lstrip] removes a prefix of whitespace. *)
Lemma lstrip_prefix (l : str) :
  exists ws, l = ws ++ lstrip l /\ Forall (fun c => is_space c = true) ws.
Proof.
  unfold lstrip. induction l as [|c r IH]; simpl.
  - exists []. split; [reflexivity|constructor].
  - destruct (is_space c) eqn:Hc.
    + destruct IH as [ws [E Hws]]. exists (c :: ws). split.
      * simpl. now rewrite <- E.
      * now constructor.
    + exists []. split; [reflexivity|constructor].
Qed.

Lemma lstrip_app (o r : str) : lstrip o <> [] -> lstrip (o ++ r) = lstrip o ++ r.
Proof.
  unfold lstrip. induction o as [|c o IH]; simpl; intros H; [congruence|].
  destruct (is_space c); [now apply IH|reflexivity].
Qed.

Lemma lstrip_keeps_end (l : str) : ends_nonspace l -> ends_nonspace (lstrip l).
Proof.
  intros [init [z [-> Hz]]]. unfold lstrip.
  induction init as [|c init IH]; simpl.
  - rewrite Hz. now exists [], z.
  - destruct (is_space c); [assumption|]. now exists (c :: init), z.
Qed.

Lemma strip_result (l : str) :
  strip l = [] \/ (starts_nonspace (strip l) /\ ends_nonspace (strip l)).
Proof.
  unfold strip. destruct (lstrip_result l) as [E|S].
  - left. now rewrite E.
  - right. pose proof (rstrip_keeps_start _ S) as S'. split; [assumption|].
    destruct (rstrip_result (lstrip l)) as [E|E]; [|assumption].
    destruct S' as [c [r [E' _]]]. congruence.
Qed.

Lemma strip_fixed (l : str) :
  starts_nonspace l -> ends_nonspace l -> strip l = l.
Proof.
  intros S E. unfold strip. rewrite (lstrip_starts_nonspace l S).
  now apply rstrip_ends_nonspace.
Qed.

(** The overlap, stripped on the left, then a separator and a stripped
    paragraph: only the left strip acts. *)
Lemma strip_seeded (o m b : str) :
  lstrip o <> [] -> ends_nonspace b ->
  strip (o ++ m ++ b) = lstrip o ++ m ++ b.
Proof.
  intros Ho Hb. unfold strip. rewrite (lstrip_app o (m ++ b) Ho).
  apply rstrip_ends_nonspace. rewrite app_assoc. now apply ends_nonspace_app.
Qed.

(** ** The overlap is a suffix of the closed chunk *)

Lemma last_chars_suffix (n : nat) (c : str) :
  c = firstn (length c - n) c ++ last_chars n c.
Proof. unfold last_chars. now rewrite firstn_skipn. Qed.

Lemma last_chars_ends (n : nat) (c : str) :
  0 < n -> ends_nonspace c -> ends_nonspace (last_chars n c).
Proof.
  intros Hn [init [z [-> Hz]]]. unfold last_chars.
  rewrite length_app, skipn_app. simpl length.
  replace (length init + 1 - n - length init) with 0 by lia.
  simpl. now exists (skipn (length init + 1 - n) init), z.
Qed.

Lemma snoc_space (a ws : str) :
  Forall (fun c => is_space c = true) ws ->
  exists pre w, a ++ SP :: ws = pre ++ [w] /\ is_space w = true.
Proof.
  intros H. destruct (exists_last (l := SP :: ws)) as [pre [w E]];
    [discriminate|].
  exists (a ++ pre), w. split; [rewrite E; now rewrite app_assoc|].
  assert (In w (SP :: ws)) as I by (rewrite E; apply in_or_app; right; now left).
  destruct I as [<-|I]; [reflexivity|].
  rewrite Forall_forall in H. now apply H.
Qed.

(** The overlap of a chunk that ends with a non-whitespace character. *)
Lemma overlap_of_suffix (c : str) :
  ends_nonspace c ->
  ends_nonspace (overlap_of c)
  /\ (exists pre, c = pre ++ overlap_of c)
  /\ (In SP (last_chars CHUNK_OVERLAP_CHARS c) ->
      exists pre, c = pre ++ SP :: overlap_of c).
Proof.
  intros Hc.
  assert (ends_nonspace (last_chars CHUNK_OVERLAP_CHARS c)) as Ht
    by (apply last_chars_ends; [unfold CHUNK_OVERLAP_CHARS; lia|assumption]).
  pose proof (last_chars_suffix CHUNK_OVERLAP_CHARS c) as Hs.
  unfold overlap_of.
  destruct (find_space (last_chars CHUNK_OVERLAP_CHARS c)) as [idx|] eqn:F.
  - destruct (find_space_some _ _ F) as [p [post [E [Hl Hn]]]].
    rewrite E. rewrite <- Hl, skipn_past_prefix.
    assert (ends_nonspace post) as Hp.
    { destruct Ht as [ti [z [Et Hz]]]. rewrite E in Et.
      destruct post as [|y post'].
      - apply (app_inj_tail p ti SP z) in Et. destruct Et as [_ <-].
        discriminate.
      - destruct (exists_last (l := y :: post')) as [pi [z' Ep]];
          [discriminate|].
        rewrite Ep in Et |- *.
        change (p ++ SP :: pi ++ [z']) with (p ++ (SP :: pi) ++ [z']) in Et.
        rewrite app_assoc in Et.
        apply app_inj_tail in Et. destruct Et as [_ ->]. now exists pi, z. }
    split; [assumption|].
    assert (c = (firstn (length c - CHUNK_OVERLAP_CHARS) c ++ p) ++ SP :: post)
      as Ec by (rewrite <- app_assoc, <- E; exact Hs).
    split.
    + exists ((firstn (length c - CHUNK_OVERLAP_CHARS) c ++ p) ++ [SP]).
      rewrite <- app_assoc. exact Ec.
    + intros _. eexists. exact Ec.
  - split; [assumption|]. split.
    + eexists. exact Hs.
    + intros I. apply find_space_none in F. contradiction.
Qed.

(** The seed of a chunk that ends with a non-whitespace character. *)
Lemma seed_suffix (c : str) :
  ends_nonspace c ->
  seed c <> []
  /\ (exists pre, c = pre ++ seed c)
  /\ (In SP (last_chars CHUNK_OVERLAP_CHARS c) -> word_aligned_suffix (seed c) c).
Proof.
  intros Hc. destruct (overlap_of_suffix c Hc) as [He [[pre Hp] Hsp]].
  assert (seed c <> []) as Hne
    by (apply ends_nonspace_nonempty, lstrip_keeps_end; assumption).
  destruct (lstrip_prefix (overlap_of c)) as [ws [Ews Hws]].
  fold (seed c) in Ews.
  split; [assumption|]. split.
  - exists (pre ++ ws). rewrite <- app_assoc, <- Ews. exact Hp.
  - intros I. split; [assumption|]. right.
    destruct (Hsp I) as [pre' Hp'].
    destruct (snoc_space pre' ws Hws) as [q [w [Eq Hw]]].
    exists q, w. split; [|assumption].
    change (q ++ w :: seed c) with (q ++ [w] ++ seed c).
    rewrite app_assoc, <- Eq, <- app_assoc. simpl. now rewrite <- Ews.
Qed.

(** ** The loop of [split_into_chunks] *)











(** ** Characters that [clean_text] lets through *)

Section CharsKept.

(** A set of characters with the line feed and the space. *)
Variable P : ascii -> Prop.
Hypothesis P_LF : P LF.
Hypothesis P_SP : P SP.

Lemma rejoin_hyphens_keeps (l : str) :
  Forall P l -> Forall P (rejoin_hyphens l).
Proof.
  assert (forall n (l : str), length l <= n ->
            Forall P l -> Forall P (rejoin_hyphens l)) as H.
  { induction n as [|n IH]; intros [|a r] Hl HP; simpl; try constructor;
      simpl in Hl; try lia.
    all: inversion HP as [|? ? Ha Hr]; subst.
    all: assert (Forall P (rejoin_hyphens r)) as Hrec by (apply IH; [lia|assumption]).
    all: try (now constructor).
    destruct r as [|h [|n0 [|b r']]]; try (constructor; assumption).
    destruct (Ascii.eqb h "-"%char); [|constructor; assumption].
    destruct (Ascii.eqb n0 LF); [|constructor; assumption].
    destruct (is_word a); [|constructor; assumption].
    destruct (is_word b); [|constructor; assumption].
    inversion Hr as [|? ? _ Hr1]; subst.
    inversion Hr1 as [|? ? _ Hr2]; subst.
    inversion Hr2 as [|? ? Hb Hr3]; subst.
    constructor; [assumption|]. constructor; [assumption|].
    apply IH; [simpl in Hl; lia|assumption]. }
  intros HP. now apply (H (length l)).
Qed.

Lemma strip_page_numbers_from_keeps (l : str) (skip : nat) (bol : bool) :
  Forall P l -> Forall P (strip_page_numbers_from skip bol l).
Proof.
  revert skip bol. induction l as [|c r IH]; intros skip bol HP; simpl.
  - constructor.
  - inversion HP as [|? ? Hc Hr]; subst.
    destruct skip as [|n]; [|now apply IH].
    destruct bol; [|constructor; [assumption|now apply IH]].
    destruct (page_number_match (c :: r)) as [[|n]|];
      try (constructor; [assumption|now apply IH]).
    now apply IH.
Qed.

Lemma collapse_newlines_from_keeps (l : str) (k : nat) :
  Forall P l -> Forall P (collapse_newlines_from k l).
Proof.
  revert k. induction l as [|c r IH]; intros k HP; simpl; [constructor|].
  inversion HP as [|? ? Hc Hr]; subst.
  destruct (Ascii.eqb c LF).
  - destruct (k <? 2); [constructor; [exact P_LF|]|]; now apply IH.
  - constructor; [assumption|now apply IH].
Qed.

Lemma collapse_blanks_from_keeps (l : str) (in_run : bool) :
  Forall P l -> Forall P (collapse_blanks_from in_run l).
Proof.
  revert in_run. induction l as [|c r IH]; intros in_run HP; simpl;
    [constructor|].
  inversion HP as [|? ? Hc Hr]; subst.
  destruct (is_blank c); [|constructor; [assumption|now apply IH]].
  destruct in_run; [now apply IH|].
  destruct r as [|d r']; [now constructor|].
  destruct (is_blank d); constructor; try assumption; try exact P_SP;
    now apply IH.
Qed.

Lemma push_head_keeps (c : ascii) (parts : list str) :
  P c -> Forall (Forall P) parts -> Forall (Forall P) (push_head c parts).
Proof.
  intros Hc Hp. destruct parts as [|h t]; simpl.
  - constructor; [now constructor|constructor].
  - inversion Hp; subst. constructor; [now constructor|assumption].
Qed.

Lemma split_nl_keeps (l : str) : Forall P l -> Forall (Forall P) (split_nl l).
Proof.
  induction 1 as [|c r Hc Hr IH]; simpl.
  - constructor; constructor.
  - destruct (Ascii.eqb c LF).
    + constructor; [constructor|assumption].
    + now apply push_head_keeps.
Qed.

Lemma join_lf_keeps (parts : list str) :
  Forall (Forall P) parts -> Forall P (join [LF] parts).
Proof.
  induction 1 as [|p rest Hp Hr IH]; simpl; [constructor|].
  destruct rest as [|q rest']; [assumption|].
  apply Forall_app. split; [assumption|].
  constructor; [exact P_LF|assumption].
Qed.

Lemma lstrip_keeps (l : str) : Forall P l -> Forall P (lstrip l).
Proof.
  unfold lstrip. induction 1 as [|c r Hc Hr IH]; simpl; [constructor|].
  destruct (is_space c); [assumption|now constructor].
Qed.

Lemma rstrip_keeps (l : str) : Forall P l -> Forall P (rstrip l).
Proof.
  induction 1 as [|c r Hc Hr IH]; simpl; [constructor|].
  destruct (rstrip r) as [|d r'].
  - destruct (is_space c); [constructor|now constructor].
  - now constructor.
Qed.

Lemma strip_keeps (l : str) : Forall P l -> Forall P (strip l).
Proof. intros H. now apply rstrip_keeps, lstrip_keeps. Qed.

Lemma strip_lines_keeps (l : str) : Forall P l -> Forall P (strip_lines l).
Proof.
  intros H. apply join_lf_keeps.
  apply split_nl_keeps in H. induction H as [|p rest Hp Hr IH]; simpl;
    constructor; [now apply strip_keeps|assumption].
Qed.

Lemma drop_caps_lines_keeps (l : str) :
  Forall P l -> Forall P (drop_caps_lines l).
Proof.
  intros H. apply join_lf_keeps.
  apply split_nl_keeps in H. induction H as [|p rest Hp Hr IH]; simpl;
    [constructor|].
  destruct (negb (is_caps_line p)); [now constructor|assumption].
Qed.

End CharsKept.

Lemma replace_cr_no_cr (l : str) : Forall (fun c => c <> CR) (replace_cr l).
Proof.
  unfold replace_cr. induction l as [|c r IH]; simpl; constructor;
    [|assumption].
  destruct (Ascii.eqb c CR) eqn:E; [discriminate|now apply ascii_eqb_false].
Qed.

Lemma replace_ff_plain (l : str) :
  Forall (fun c => c <> CR) l -> Forall plain (replace_ff l).
Proof.
  unfold replace_ff. induction 1 as [|c r Hc Hr IH]; simpl; [constructor|].
  destruct (Ascii.eqb c FF) eqn:E; simpl.
  - constructor; [split; discriminate|].
    constructor; [split; discriminate|assumption].
  - constructor; [|assumption]. split; [assumption|now apply ascii_eqb_false].
Qed.

Lemma clean_text_plain (raw : str) : Forall plain (clean_text raw).
Proof.
  assert (plain LF) as HL by (split; discriminate).
  assert (plain SP) as HS by (split; discriminate).
  unfold clean_text.
  apply strip_keeps, (strip_lines_keeps plain HL).
  apply (collapse_blanks_from_keeps plain HS).
  apply (drop_caps_lines_keeps plain HL).
  apply (collapse_newlines_from_keeps plain HL).
  apply strip_page_numbers_from_keeps, rejoin_hyphens_keeps.
  apply replace_ff_plain, replace_cr_no_cr.
Qed.

Lemma replace_crlf_plain (l : str) : Forall plain l -> replace_crlf l = l.
Proof.
  induction 1 as [|c r [Hc _] Hr IH]; [reflexivity|].
  destruct r as [|d r']; [reflexivity|].
  change (replace_crlf (c :: d :: r'))
    with (if Ascii.eqb c CR && Ascii.eqb d LF then LF :: replace_crlf r'
          else c :: replace_crlf (d :: r')).
  apply ascii_eqb_false in Hc. rewrite Hc, IH. reflexivity.
Qed.

Lemma replace_cr_plain (l : str) : Forall plain l -> replace_cr l = l.
Proof.
  unfold replace_cr. induction 1 as [|c r [Hc _] Hr IH]; simpl; [reflexivity|].
  apply ascii_eqb_false in Hc. now rewrite Hc, IH.
Qed.

Lemma replace_ff_fixed (l : str) : Forall plain l -> replace_ff l = l.
Proof.
  unfold replace_ff. induction 1 as [|c r [_ Hc] Hr IH]; simpl; [reflexivity|].
  apply ascii_eqb_false in Hc. rewrite Hc. simpl. now rewrite IH.
Qed.

(** ** Runs of blanks *)

Lemma collapse_blanks_in_run_head (l : str) :
  head_blank (collapse_blanks_from true l) = false.
Proof.
  induction l as [|c r IH]; simpl; [reflexivity|].
  destruct (is_blank c) eqn:E; [assumption|]. simpl. exact E.
Qed.

Lemma collapse_blanks_from_no_pair (l : str) (in_run : bool) :
  no_blank_pair (collapse_blanks_from in_run l).
Proof.
  revert in_run. induction l as [|c r IH]; intros in_run; simpl; [exact I|].
  destruct (is_blank c) eqn:E.
  - destruct in_run; [apply IH|].
    destruct r as [|d r']; [simpl; split; [reflexivity|exact I]|].
    destruct (is_blank d) eqn:D.
    + split; [|apply IH]. intros _. apply collapse_blanks_in_run_head.
    + split; [|apply IH]. intros _. simpl. rewrite D. simpl. exact D.
  - split; [|apply IH]. intros K. congruence.
Qed.

Lemma collapse_blanks_fixed (l : str) :
  no_blank_pair l -> collapse_blanks l = l.
Proof.
  unfold collapse_blanks. induction l as [|c r IH]; [reflexivity|].
  intros [H1 H2]. simpl. destruct (is_blank c) eqn:E.
  - destruct r as [|d r']; [reflexivity|].
    specialize (H1 eq_refl). simpl in H1. rewrite H1. now rewrite IH.
  - now rewrite IH.
Qed.

Lemma no_blank_pair_lstrip (l : str) :
  no_blank_pair l -> no_blank_pair (lstrip l).
Proof.
  unfold lstrip. induction l as [|c r IH]; intros H; simpl; [exact I|].
  destruct (is_space c); [apply IH; now destruct H|assumption].
Qed.

Lemma rstrip_head (r : str) (d : ascii) (r' : str) :
  rstrip r = d :: r' -> exists r0, r = d :: r0.
Proof.
  destruct r as [|c r0]; simpl; [discriminate|].
  destruct (rstrip r0).
  - destruct (is_space c); [discriminate|]. intros H. inversion H.
    now exists r0.
  - intros H. inversion H. now exists r0.
Qed.

Lemma no_blank_pair_rstrip (l : str) :
  no_blank_pair l -> no_blank_pair (rstrip l).
Proof.
  induction l as [|c r IH]; [intros _; exact I|].
  intros [H1 H2]. simpl. specialize (IH H2).
  destruct (rstrip r) as [|d r'] eqn:E.
  - destruct (is_space c); simpl; [exact I|]. split; [reflexivity|exact I].
  - split; [|assumption]. intros K. specialize (H1 K).
    destruct (rstrip_head r d r' E) as [r0 ->]. exact H1.
Qed.

Lemma no_blank_pair_strip (l : str) :
  no_blank_pair l -> no_blank_pair (strip l).
Proof. intros H. now apply no_blank_pair_rstrip, no_blank_pair_lstrip. Qed.

Lemma no_blank_pair_app_lf (l k : str) :
  no_blank_pair l -> no_blank_pair k -> no_blank_pair (l ++ LF :: k).
Proof.
  intros Hl Hk. induction l as [|c r IH]; simpl.
  - split; [discriminate|assumption].
  - destruct Hl as [H1 H2]. split; [|now apply IH].
    intros K. specialize (H1 K). destruct r; [reflexivity|exact H1].
Qed.

Lemma no_blank_pair_join (parts : list str) :
  Forall no_blank_pair parts -> no_blank_pair (join [LF] parts).
Proof.
  induction 1 as [|p rest Hp Hr IH]; simpl; [exact I|].
  destruct rest as [|q rest']; [assumption|].
  now apply no_blank_pair_app_lf.
Qed.

Lemma split_nl_head (r : str) (x : ascii) (h : str) (t : list str) :
  split_nl r = (x :: h) :: t -> exists r0, r = x :: r0.
Proof.
  destruct r as [|c r0]; simpl; [discriminate|].
  destruct (Ascii.eqb c LF); [discriminate|].
  destruct (split_nl r0); simpl; intros H; inversion H; now exists r0.
Qed.

Lemma no_blank_pair_split (l : str) :
  no_blank_pair l -> Forall no_blank_pair (split_nl l).
Proof.
  induction l as [|c r IH]; intros H; simpl.
  - constructor; [exact I|constructor].
  - destruct H as [H1 H2]. specialize (IH H2).
    destruct (Ascii.eqb c LF); [constructor; [exact I|assumption]|].
    destruct (split_nl r) as [|h t] eqn:E; simpl.
    + constructor; [|constructor]. split; [reflexivity|exact I].
    + inversion IH; subst. constructor; [|assumption].
      split; [|assumption]. intros K. specialize (H1 K).
      destruct h as [|x h']; [reflexivity|].
      destruct (split_nl_head r x h' t E) as [r0 ->]. exact H1.
Qed.

Lemma no_blank_pair_strip_lines (l : str) :
  no_blank_pair l -> no_blank_pair (strip_lines l).
Proof.
  intros H. apply no_blank_pair_join. apply no_blank_pair_split in H.
  induction H as [|p rest Hp Hr IH]; simpl; constructor;
    [now apply no_blank_pair_strip|assumption].
Qed.

Lemma clean_text_no_blank_pair (raw : str) : no_blank_pair (clean_text raw).
Proof.
  unfold clean_text.
  apply no_blank_pair_strip, no_blank_pair_strip_lines.
  apply collapse_blanks_from_no_pair.
Qed.

(** ** Lines without whitespace at their ends *)

Lemma not_hspace_space (c : ascii) : ~ hspace c -> is_space c = true -> c = LF.
Proof.
  intros H S. destruct (Ascii.eqb c LF) eqn:E; [now apply ascii_eqb_true|].
  apply ascii_eqb_false in E. exfalso. apply H. now split.
Qed.

Lemma not_hspace_nonspace (c : ascii) : is_space c = false -> ~ hspace c.
Proof. intros H [K _]. congruence. Qed.

Lemma not_hspace_lf : ~ hspace LF.
Proof. intros [_ K]. now apply K. Qed.

Lemma strip_idempotent (l : str) : strip (strip l) = strip l.
Proof.
  destruct (strip_result l) as [E|[S E]].
  - rewrite E. reflexivity.
  - now apply strip_fixed.
Qed.

Lemma split_nl_nonempty (t : str) : split_nl t <> [].
Proof.
  destruct t as [|c r]; simpl; [discriminate|].
  destruct (Ascii.eqb c LF); [discriminate|].
  destruct (split_nl r); discriminate.
Qed.

Lemma join_split_nl (t : str) : join [LF] (split_nl t) = t.
Proof.
  induction t as [|c r IH]; simpl; [reflexivity|].
  pose proof (split_nl_nonempty r) as N.
  destruct (Ascii.eqb c LF) eqn:E.
  - apply ascii_eqb_true in E. subst c.
    destruct (split_nl r) as [|h tl]; [congruence|].
    simpl in *. now rewrite IH.
  - destruct (split_nl r) as [|h tl]; [congruence|].
    simpl push_head. destruct tl as [|h2 tl]; simpl in *; now rewrite <- IH.
Qed.

Lemma split_nl_empty_head (r : str) (tl : list str) :
  split_nl r = [] :: tl -> r = [] \/ exists r', r = LF :: r'.
Proof.
  destruct r as [|c r']; [now left|]. simpl.
  destruct (Ascii.eqb c LF) eqn:E.
  - apply ascii_eqb_true in E. subst c. right. now exists r'.
  - destruct (split_nl r'); simpl; discriminate.
Qed.

Lemma ends_nonspace_cons (c : ascii) (l : str) :
  ends_nonspace l -> ends_nonspace (c :: l).
Proof. apply (ends_nonspace_app [c]). Qed.

Lemma ends_nonspace_tail (c : ascii) (l : str) :
  ends_nonspace (c :: l) -> l <> [] -> ends_nonspace l.
Proof.
  intros [init [z [E Hz]]] N. destruct init as [|i init].
  - simpl in E. inversion E. congruence.
  - simpl in E. inversion E. now exists init, z.
Qed.

Lemma ends_nonspace_single (c : ascii) :
  ends_nonspace [c] -> is_space c = false.
Proof.
  intros [init [z [E Hz]]]. destruct init as [|i init].
  - simpl in E. now inversion E.
  - simpl in E. inversion E. now destruct init.
Qed.

(** The lines of a text that is [lines_ok]: the first one has no whitespace
    at its end, nor at its start when it starts the text or follows a line
    feed; the other ones are stripped. *)
Lemma lines_ok_lines (t : str) :
  forall p h tl,
    lines_ok p t -> split_nl t = h :: tl ->
    (h <> [] -> ends_nonspace h)
    /\ (p = LF -> h <> [] -> starts_nonspace h)
    /\ Forall (fun l => strip l = l) tl.
Proof.
  induction t as [|c r IH]; intros p h tl Hok Hs; simpl in Hs.
  - inversion Hs; subst. repeat split; try congruence. constructor.
  - destruct Hok as [A1 [A2 Hr]].
    destruct (Ascii.eqb c LF) eqn:E.
    + apply ascii_eqb_true in E. subst c. injection Hs as <- <-.
      split; [congruence|]. split; [congruence|].
      destruct (split_nl r) as [|h' tl'] eqn:Er; [constructor|].
      destruct (IH LF h' tl' Hr eq_refl) as [H1 [H2 H3]].
      constructor; [|assumption].
      destruct h' as [|x h'']; [reflexivity|].
      apply strip_fixed; [apply H2|apply H1]; congruence.
    + apply ascii_eqb_false in E.
      destruct (split_nl r) as [|h' tl'] eqn:Er;
        [now apply split_nl_nonempty in Er|].
      simpl in Hs. injection Hs as <- <-.
      destruct (IH c h' tl' Hr eq_refl) as [H1 [H2 H3]].
      assert (h' = [] -> is_space c = false) as Hlast.
      { intros ->. destruct (is_space c) eqn:Sc; [|reflexivity].
        exfalso. destruct (split_nl_empty_head r tl' Er) as [->|[r' ->]].
        - simpl in Hr. apply Hr. now split.
        - destruct Hr as [_ [K _]]. apply K. split; [now split|reflexivity]. }
      split; [|split; [|assumption]].
      * intros _. destruct h' as [|x h''].
        -- exists [], c. split; [reflexivity|now apply Hlast].
        -- apply ends_nonspace_cons, H1. congruence.
      * intros -> _. exists c, h'. split; [reflexivity|].
        destruct (is_space c) eqn:Sc; [|reflexivity].
        exfalso. apply A1. split; [reflexivity|now split].
Qed.

Lemma lines_ok_strip_lines_fixed (t : str) :
  lines_ok LF t -> strip_lines t = t.
Proof.
  intros H. unfold strip_lines.
  destruct (split_nl t) as [|h tl] eqn:E; [now apply split_nl_nonempty in E|].
  destruct (lines_ok_lines t LF h tl H E) as [H1 [H2 H3]].
  assert (map strip (h :: tl) = h :: tl) as M.
  { simpl. f_equal.
    - destruct h as [|x h']; [reflexivity|].
      apply strip_fixed; [apply H2|apply H1]; congruence.
    - clear E. induction H3 as [|l ls Hl Hls IH]; simpl; [reflexivity|].
      now rewrite Hl, IH. }
  rewrite M, <- E. apply join_split_nl.
Qed.

(** A line without line feed and without whitespace at its ends, then
    the rest of the text. *)
Lemma lines_ok_line (l k : str) :
  forall p,
    ~ In LF l ->
    (l <> [] -> ends_nonspace l) ->
    (p = LF -> l <> [] -> starts_nonspace l) ->
    (l = [] -> ~ hspace p) ->
    (forall q, ~ hspace q -> lines_ok q k) ->
    lines_ok p (l ++ k).
Proof.
  induction l as [|c l' IH]; intros p Hlf He Hs Hp Hk; simpl.
  - apply Hk. now apply Hp.
  - assert (c <> LF) as Nc by (intros ->; apply Hlf; now left).
    split.
    { intros [-> K]. destruct (Hs eq_refl ltac:(discriminate))
        as [c0 [r0 [E0 S0]]].
      inversion E0; subst c0 r0. revert K. now apply not_hspace_nonspace. }
    split; [intros [_ K]; contradiction|].
    apply IH.
    + intros K. apply Hlf. now right.
    + intros N. apply (ends_nonspace_tail c); [|assumption].
      apply He. discriminate.
    + intros K. contradiction.
    + intros ->. apply not_hspace_nonspace, ends_nonspace_single.
      apply He. discriminate.
    + assumption.
Qed.

Lemma split_nl_no_lf (t : str) : Forall (fun l => ~ In LF l) (split_nl t).
Proof.
  induction t as [|c r IH]; simpl.
  - constructor; [intros []|constructor].
  - destruct (Ascii.eqb c LF) eqn:E.
    + constructor; [intros []|assumption].
    + apply ascii_eqb_false in E.
      destruct (split_nl r) as [|h tl]; simpl.
      * constructor; [|constructor]. intros [K|[]]. congruence.
      * inversion IH; subst. constructor; [|assumption].
        intros [K|K]; [congruence|contradiction].
Qed.

Lemma strip_no_lf (l : str) : ~ In LF l -> ~ In LF (strip l).
Proof.
  intros H K.
  assert (Forall (fun c => c <> LF) l) as F.
  { apply Forall_forall. intros c Hc ->. contradiction. }
  apply (strip_keeps (fun c => c <> LF)) in F.
  rewrite Forall_forall in F. now apply (F LF K).
Qed.

(** Stripped lines joined by line feeds. *)
Lemma lines_ok_join (parts : list str) :
  Forall (fun l => ~ In LF l /\ strip l = l) parts ->
  forall p, ~ hspace p -> lines_ok p (join [LF] parts).
Proof.
  induction 1 as [|l rest [Hlf Hl] Hr IH]; intros p Hp; simpl; [assumption|].
  assert (l <> [] -> starts_nonspace l /\ ends_nonspace l) as Hse.
  { intros N. destruct (strip_result l) as [E|E]; rewrite Hl in E;
      [contradiction|assumption]. }
  destruct rest as [|l2 rest'].
  - rewrite <- (app_nil_r l). apply lines_ok_line.
    + assumption.
    + intros N. now apply Hse.
    + intros _ N. now apply Hse.
    + intros _. assumption.
    + intros q Hq. exact Hq.
  - apply lines_ok_line.
    + assumption.
    + intros N. now apply Hse.
    + intros _ N. now apply Hse.
    + intros _. assumption.
    + intros q Hq. simpl. split; [intros [_ K]; now apply not_hspace_lf|].
      split; [intros [K _]; contradiction|].
      apply IH. apply not_hspace_lf.
Qed.

Lemma lines_ok_strip_lines (z : str) : lines_ok LF (strip_lines z).
Proof.
  unfold strip_lines. apply lines_ok_join; [|apply not_hspace_lf].
  pose proof (split_nl_no_lf z) as H.
  induction H as [|l rest Hl Hr IH]; simpl; constructor; [|assumption].
  split; [now apply strip_no_lf|apply strip_idempotent].
Qed.

Lemma lines_ok_lstrip (t : str) : lines_ok LF t -> lines_ok LF (lstrip t).
Proof.
  unfold lstrip. induction t as [|c r IH]; intros H; simpl; [assumption|].
  destruct (is_space c) eqn:S; [|assumption].
  destruct H as [A1 [_ Hr]].
  assert (c = LF) as ->.
  { apply not_hspace_space; [|assumption]. intros K. apply A1. now split. }
  now apply IH.
Qed.

Lemma rstrip_empty_ok (t : str) :
  forall p, rstrip t = [] -> lines_ok p t -> ~ hspace p.
Proof.
  induction t as [|c r IH]; intros p E H; simpl in *; [assumption|].
  destruct H as [_ [A2 Hr]].
  destruct (rstrip r) as [|d r'] eqn:Er; [|discriminate].
  destruct (is_space c) eqn:S; [|discriminate].
  assert (c = LF) as -> by (apply not_hspace_space; [now apply IH|assumption]).
  intros K. apply A2. now split.
Qed.

Lemma lines_ok_rstrip (t : str) :
  forall p, lines_ok p t -> lines_ok p (rstrip t).
Proof.
  induction t as [|c r IH]; intros p H; [assumption|].
  pose proof (rstrip_empty_ok (c :: r) p) as Hempty.
  destruct H as [A1 [A2 Hr]].
  specialize (IH c Hr).
  change (rstrip (c :: r))
    with (match rstrip r with
          | [] => if is_space c then [] else [c]
          | r' => c :: r'
          end) in *.
  destruct (rstrip r) as [|d r'] eqn:Er.
  - destruct (is_space c) eqn:S.
    + apply Hempty; [reflexivity|]. split; [assumption|now split].
    + split; [assumption|]. split; [assumption|].
      now apply not_hspace_nonspace.
  - split; [assumption|]. now split.
Qed.

Lemma lines_ok_strip (t : str) : lines_ok LF t -> lines_ok LF (strip t).
Proof. intros H. now apply lines_ok_rstrip, lines_ok_lstrip. Qed.

Lemma clean_text_strip_lines_fixed (raw : str) :
  strip_lines (clean_text raw) = clean_text raw.
Proof.
  apply lines_ok_strip_lines_fixed. unfold clean_text.
  apply lines_ok_strip, lines_ok_strip_lines.
Qed.

(** ** [clean_text] applied twice *)

(** The all-caps filter leaves three line feeds, which only a second pass
    collapses. *)
Lemma clean_text_not_idempotent :
  clean_text header_between_blank_lines = text_of ["a"; blank; blank; "b"]
  /\ clean_text (clean_text header_between_blank_lines) = text_of ["a"; blank; "b"]
  /\ clean_text (clean_text header_between_blank_lines)
     <> clean_text header_between_blank_lines.
Proof.
  split; [vm_compute; reflexivity|].
  split; [vm_compute; reflexivity|].
  vm_compute. discriminate.
Qed.

(** C2, amended: a second pass of [clean_text] changes nothing when the
    result of the first pass has no hyphenated line break, no page-number
    line, no run of three line feeds and no short all-caps line left, that
    is, when the four steps that look for them leave it as it is.  The other
    steps (line endings, form feeds, runs of blanks, stripping of the lines
    and of the text) never change the result of a first pass. *)
Theorem clean_text_idempotent_on_settled_text (x : str) :
  rejoin_hyphens (clean_text x) = clean_text x ->
  strip_page_numbers (clean_text x) = clean_text x ->
  collapse_newlines (clean_text x) = clean_text x ->
  drop_caps_lines (clean_text x) = clean_text x ->
  clean_text (clean_text x) = clean_text x.
Proof.
  intros H3 H4 H5 H6.
  pose proof (clean_text_plain x) as Hp.
  unfold clean_text at 1.
  rewrite (replace_crlf_plain _ Hp), (replace_cr_plain _ Hp).
  rewrite (replace_ff_fixed _ Hp), H3, H4, H5, H6.
  rewrite (collapse_blanks_fixed _ (clean_text_no_blank_pair x)).
  rewrite clean_text_strip_lines_fixed.
  unfold clean_text at 1. apply strip_idempotent.
Qed.

Lemma clean_text_idempotent_on_settled_text_witness :
  clean_text settled_page
  = text_of ["Warm up first."; "Then squat."; blank; "Rest two minutes."]
  /\ clean_text (clean_text settled_page) = clean_text settled_page.
Proof.
  split; [vm_compute; reflexivity|].
  apply clean_text_idempotent_on_settled_text; vm_compute; reflexivity.
Defined.

(** * Further properties *)

(** ** What [clean_text] returns *)

(** X1: the result of [clean_text] holds no carriage return and no form
    feed. *)
Theorem clean_text_has_no_cr_or_ff (raw : str) :
  ~ In CR (clean_text raw) /\ ~ In FF (clean_text raw).
Proof.
  pose proof (clean_text_plain raw) as H. rewrite Forall_forall in H.
  split; intros K; destruct (H _ K) as [H1 H2]; congruence.
Qed.

Lemma no_blank_pair_at (l pre post : str) (c d : ascii) :
  no_blank_pair l -> l = pre ++ c :: d :: post ->
  is_blank c = true -> is_blank d = false.
Proof.
  revert l. induction pre as [|x pre IH]; intros l H -> Hc.
  - destruct H as [H _]. exact (H Hc).
  - destruct H as [_ H]. now apply (IH (pre ++ c :: d :: post)).
Qed.

(** X2: in the result of [clean_text] no blank (space or tab) is followed by
    a blank. *)
Theorem clean_text_has_no_run_of_blanks (raw pre post : str) (c d : ascii) :
  clean_text raw = pre ++ c :: d :: post ->
  ~ (is_blank c = true /\ is_blank d = true).
Proof.
  intros E [Hc Hd].
  pose proof (no_blank_pair_at (clean_text raw) pre post c d
                (clean_text_no_blank_pair raw) E Hc) as K.
  congruence.
Qed.

Lemma clean_text_has_no_run_of_blanks_witness :
  clean_text (lit "Warm  up") = lit "Warm" ++ " "%char :: "u"%char :: lit "p"
  /\ ~ (is_blank " "%char = true /\ is_blank "u"%char = true).
Proof.
  assert (clean_text (lit "Warm  up")
          = lit "Warm" ++ " "%char :: "u"%char :: lit "p") as E
    by (vm_compute; reflexivity).
  split; [exact E|].
  exact (clean_text_has_no_run_of_blanks (lit "Warm  up") (lit "Warm")
           (lit "p") " "%char "u"%char E).
Defined.

Lemma lines_ok_all_stripped (t : str) :
  lines_ok LF t -> Forall (fun l => strip l = l) (split_nl t).
Proof.
  intros H.
  destruct (split_nl t) as [|h tl] eqn:E; [constructor|].
  destruct (lines_ok_lines t LF h tl H E) as [H1 [H2 H3]].
  constructor; [|assumption].
  destruct h as [|x h']; [reflexivity|].
  apply strip_fixed; [apply H2|apply H1]; congruence.
Qed.

(** X3: the result of [clean_text] is stripped, and so is each of its
    lines: no line starts or ends with whitespace. *)
Theorem clean_text_is_stripped_line_by_line (raw : str) :
  strip (clean_text raw) = clean_text raw
  /\ Forall (fun line => strip line = line) (split_nl (clean_text raw)).
Proof.
  split.
  - unfold clean_text. apply strip_idempotent.
  - apply lines_ok_all_stripped. unfold clean_text.
    apply lines_ok_strip, lines_ok_strip_lines.
Qed.

(** ** Texts of whitespace *)

Lemma lstrip_blank (l : str) : blank_text l -> lstrip l = [].
Proof.
  unfold lstrip. induction 1 as [|c r Hc Hr IH]; simpl; [reflexivity|].
  now rewrite Hc.
Qed.

Lemma strip_blank (l : str) : blank_text l -> strip l = [].
Proof. intros H. unfold strip. now rewrite (lstrip_blank l H). Qed.

Lemma replace_crlf_blank (l : str) : blank_text l -> blank_text (replace_crlf l).
Proof.
  assert (forall n (l : str), length l <= n -> blank_text l ->
                              blank_text (replace_crlf l)) as H.
  { induction n as [|n IH]; intros [|c r] Hl Hb; simpl in *;
      try constructor; try lia.
    all: inversion Hb as [|? ? Hc Hr]; subst.
    all: destruct r as [|d r']; [constructor; [assumption|constructor]|].
    all: inversion Hr as [|? ? Hd Hr']; subst.
    all: destruct (Ascii.eqb c CR && Ascii.eqb d LF).
    all: constructor; try reflexivity; try assumption.
    all: apply IH; simpl in *; try lia; assumption. }
  intros Hb. now apply (H (length l)).
Qed.

Lemma replace_cr_blank (l : str) : blank_text l -> blank_text (replace_cr l).
Proof.
  unfold replace_cr. induction 1 as [|c r Hc Hr IH]; simpl; constructor;
    [|assumption].
  destruct (Ascii.eqb c CR); [reflexivity|assumption].
Qed.

Lemma replace_ff_blank (l : str) : blank_text l -> blank_text (replace_ff l).
Proof.
  unfold replace_ff. induction 1 as [|c r Hc Hr IH]; simpl; [constructor|].
  destruct (Ascii.eqb c FF); simpl; repeat constructor; assumption.
Qed.

Lemma clean_text_blank (raw : str) : blank_text raw -> clean_text raw = [].
Proof.
  intros H. unfold clean_text. apply strip_blank.
  apply (strip_lines_keeps (fun c => is_space c = true) eq_refl).
  apply (collapse_blanks_from_keeps (fun c => is_space c = true) eq_refl).
  apply (drop_caps_lines_keeps (fun c => is_space c = true) eq_refl).
  apply (collapse_newlines_from_keeps (fun c => is_space c = true) eq_refl).
  apply strip_page_numbers_from_keeps, rejoin_hyphens_keeps.
  now apply replace_ff_blank, replace_cr_blank, replace_crlf_blank.
Qed.

(** X4: a text made of whitespace only is cleaned to the empty string. *)
Theorem clean_text_of_whitespace_is_empty (raw : str) :
  (forall c, In c raw -> is_space c = true) -> clean_text raw = [].
Proof.
  intros H. apply clean_text_blank. now apply Forall_forall.
Qed.

Lemma clean_text_of_whitespace_is_empty_witness :
  clean_text [SP; CR; LF; FF; TAB; LF; LF; LF] = [].
Proof.
  apply clean_text_of_whitespace_is_empty.
  intros c H. repeat (destruct H as [<-|H]; [reflexivity|]). destruct H.
Defined.

(** ** What [split_into_chunks] returns *)

Lemma split_paragraphs_from_keeps (P : ascii -> Prop) (l : str) (in_sep : bool) :
  Forall P l -> Forall (Forall P) (split_paragraphs_from in_sep l).
Proof.
  assert (forall n (l : str) in_sep, length l <= n -> Forall P l ->
            Forall (Forall P) (split_paragraphs_from in_sep l)) as H.
  { induction n as [|n IH]; intros [|c r] b Hl HP; simpl in *;
      try (constructor; constructor); try lia.
    inversion HP as [|? ? Hc Hr]; subst.
    destruct (b && Ascii.eqb c LF); [apply IH; [lia|assumption]|].
    destruct r as [|d r']; [repeat constructor; assumption|].
    destruct (Ascii.eqb c LF && Ascii.eqb d LF).
    - constructor; [constructor|]. inversion Hr; subst.
      apply IH; [simpl in *; lia|assumption].
    - apply push_head_keeps; [assumption|]. apply IH; [lia|assumption]. }
  intros HP. now apply (H (length l)).
Qed.

Lemma stripped_or_empty_fixed (l : str) : stripped_or_empty l -> strip l = l.
Proof. intros [->|[S E]]; [reflexivity|now apply strip_fixed]. Qed.

(** One turn of the loop, case by case. *)
Lemma chunk_step_cases (chunks : list str) (current para : str) :
  stripped_or_empty current ->
  let b := strip para in
  (b = [] /\ chunk_step (chunks, current) para = (chunks, current))
  \/ (b <> [] /\ current = [] /\ chunk_step (chunks, current) para = (chunks, b))
  \/ (b <> [] /\ current <> []
      /\ length (current ++ [LF; LF] ++ b) <= CHUNK_TARGET_CHARS
      /\ chunk_step (chunks, current) para
         = (chunks, current ++ [LF; LF] ++ b))
  \/ (b <> [] /\ current <> []
      /\ CHUNK_TARGET_CHARS < length (current ++ [LF; LF] ++ b)
      /\ chunk_step (chunks, current) para
         = (chunks ++ [current], seed current ++ [LF; LF] ++ b)).
Proof.
  intros Hc b. unfold chunk_step. fold b.
  destruct (strip_result para) as [E | [Sb Eb]]; fold b in E || fold b in Sb, Eb.
  { left. rewrite E. now split. }
  right.
  assert (b <> []) as Nb by now apply ends_nonspace_nonempty.
  rewrite (proj2 (nonempty_true b) Nb).
  destruct current as [|c0 cur].
  - left. simpl nonempty. cbv iota. rewrite andb_false_r. now repeat split.
  - right. set (current := c0 :: cur) in *.
    assert (current <> []) as Nc by discriminate.
    destruct Hc as [Hc|[Sc Ec]]; [contradiction|].
    change (nonempty current) with true. cbv iota.
    assert (strip (current ++ [LF; LF] ++ b) = current ++ [LF; LF] ++ b) as Ecand.
    { apply strip_fixed.
      - now apply starts_nonspace_app.
      - now apply ends_nonspace_app, ends_nonspace_app. }
    rewrite Ecand, andb_true_r.
    destruct (CHUNK_TARGET_CHARS <? length (current ++ [LF; LF] ++ b)) eqn:T.
    + right. apply Nat.ltb_lt in T.
      destruct (seed_suffix current Ec) as [Hne _].
      rewrite (strip_fixed current Sc Ec).
      rewrite (strip_seeded (overlap_of current) [LF; LF] b Hne Eb).
      now repeat split.
    + left. apply Nat.ltb_ge in T. now repeat split.
Qed.

Lemma chunk_step_keeps_stripped (st : list str * str) (para : str) :
  stripped_or_empty (snd st) -> stripped_or_empty (snd (chunk_step st para)).
Proof.
  destruct st as [chunks current]. cbn [snd]. intros Hc.
  destruct (strip_result para) as [Eb | [Sb Eb]].
  - destruct (chunk_step_cases chunks current para Hc)
      as [[_ ->]|[[N _]|[[N _]|[N _]]]]; try contradiction. exact Hc.
  - destruct (chunk_step_cases chunks current para Hc)
      as [[_ ->]|[[_ [_ ->]]|[[_ [Nc [_ ->]]]|[_ [Nc [_ ->]]]]]]; cbn [snd].
    + exact Hc.
    + right. now split.
    + destruct Hc as [Hc|[Sc Ec]]; [contradiction|]. right. split.
      * now apply starts_nonspace_app.
      * now apply ends_nonspace_app, ends_nonspace_app.
    + destruct Hc as [Hc|[Sc Ec]]; [contradiction|]. right.
      destruct (seed_suffix current Ec) as [Hne _]. split.
      * apply starts_nonspace_app.
        destruct (lstrip_result (overlap_of current)) as [K|K];
          [contradiction|exact K].
      * now apply ends_nonspace_app, ends_nonspace_app.
Qed.

(** A property of the closed chunks and of the buffer that every turn of
    the loop keeps is true at the end of the loop. *)
Lemma chunk_loop_ind (Q : list str * str -> Prop) (text : str) :
  Q ([], []) ->
  (forall st para, stripped_or_empty (snd st) -> Q st ->
                   Q (chunk_step st para)) ->
  Q (chunk_loop text) /\ stripped_or_empty (snd (chunk_loop text)).
Proof.
  intros Q0 Qs. unfold chunk_loop.
  assert (forall paras st, Q st /\ stripped_or_empty (snd st) ->
            Q (fold_left chunk_step paras st)
            /\ stripped_or_empty (snd (fold_left chunk_step paras st))) as H.
  { induction paras as [|p paras IH]; intros st [HQ HS]; simpl; [now split|].
    apply IH. split; [now apply Qs|now apply chunk_step_keeps_stripped]. }
  apply H. split; [assumption|now left].
Qed.

Lemma closed_chunks_cases (text : str) :
  stripped_or_empty (snd (chunk_loop text)) ->
  closed_chunks text = fst (chunk_loop text)
  \/ (closed_chunks text = fst (chunk_loop text) ++ [snd (chunk_loop text)]
      /\ snd (chunk_loop text) <> []).
Proof.
  intros Hs. unfold closed_chunks.
  destruct (chunk_loop text) as [chunks current]. cbn [fst snd] in *.
  rewrite (stripped_or_empty_fixed current Hs).
  destruct (nonempty current && _) eqn:B; [|now left].
  right. apply andb_true_iff in B. destruct B as [B _].
  apply nonempty_true in B. now split.
Qed.

(** X5: every chunk that [split_into_chunks] returns is a stripped,
    non-empty string: it starts and ends with a character that is not
    whitespace. *)
Theorem chunks_are_stripped (text c : str) :
  In c (split_into_chunks text) ->
  starts_nonspace c /\ ends_nonspace c /\ strip c = c.
Proof.
  intros Hin. apply filter_In in Hin. destruct Hin as [Hin _].
  assert (starts_nonspace c /\ ends_nonspace c) as [S E].
  { destruct (chunk_loop_ind
                (fun st => Forall (fun c => starts_nonspace c /\ ends_nonspace c)
                                  (fst st)) text) as [HQ HS].
    - constructor.
    - intros [chunks current] para Hc HQ. cbn [fst snd] in *.
      destruct (chunk_step_cases chunks current para Hc)
        as [[_ ->]|[[_ [_ ->]]|[[_ [_ [_ ->]]]|[_ [Nc [_ ->]]]]]];
        cbn [fst]; try assumption.
      apply Forall_app. split; [assumption|]. constructor; [|constructor].
      destruct Hc as [Hc|Hc]; [contradiction|exact Hc].
    - rewrite Forall_forall in HQ.
      destruct (closed_chunks_cases text HS) as [E|[E N]]; rewrite E in Hin.
      + now apply HQ.
      + apply in_app_or in Hin. destruct Hin as [Hin|[<-|[]]];
          [now apply HQ|].
        destruct HS as [HS|HS]; [contradiction|exact HS]. }
  split; [assumption|]. split; [assumption|]. now apply strip_fixed.
Qed.

Lemma chunks_are_stripped_witness :
  strip (rep 2000 "x") = rep 2000 "x".
Proof.
  apply (chunks_are_stripped (rep 2000 "x" ++ [LF; LF] ++ rep 500 "y")).
  vm_compute. left. reflexivity.
Defined.

(** X6: a text made of whitespace only gives no chunk. *)
Theorem whitespace_gives_no_chunk (text : str) :
  (forall c, In c text -> is_space c = true) -> split_into_chunks text = [].
Proof.
  intros H. apply Forall_forall in H.
  pose proof (split_paragraphs_from_keeps (fun c => is_space c = true)
                text false H) as Hp.
  fold (split_paragraphs text) in Hp.
  assert (forall paras, Forall blank_text paras ->
            fold_left chunk_step paras ([], []) = ([], [])) as F.
  { induction 1 as [|p paras Hb _ IH]; [reflexivity|].
    cbn [fold_left].
    replace (chunk_step ([], []) p) with (@nil str, @nil ascii); [exact IH|].
    unfold chunk_step. now rewrite (strip_blank p Hb). }
  unfold split_into_chunks, closed_chunks, chunk_loop.
  rewrite (F _ Hp). reflexivity.
Qed.

Lemma whitespace_gives_no_chunk_witness :
  split_into_chunks [LF; LF; SP; TAB; LF; LF; LF; SP] = [].
Proof.
  apply whitespace_gives_no_chunk.
  intros c H. repeat (destruct H as [<-|H]; [reflexivity|]). destruct H.
Defined.

(** ** The size of the chunks, from above *)

Lemma length_lstrip (l : str) : length (lstrip l) <= length l.
Proof.
  unfold lstrip. induction l as [|c r IH]; simpl; [lia|].
  destruct (is_space c); simpl; lia.
Qed.

Lemma length_rstrip (l : str) : length (rstrip l) <= length l.
Proof.
  induction l as [|c r IH]; simpl; [lia|].
  destruct (rstrip r); [destruct (is_space c)|]; simpl in *; lia.
Qed.

Lemma length_strip (l : str) : length (strip l) <= length l.
Proof.
  unfold strip. pose proof (length_rstrip (lstrip l)).
  pose proof (length_lstrip l). lia.
Qed.

Lemma length_last_chars (n : nat) (l : str) : length (last_chars n l) <= n.
Proof. unfold last_chars. rewrite length_skipn. lia. Qed.

Lemma length_overlap_of (c : str) : length (overlap_of c) <= CHUNK_OVERLAP_CHARS.
Proof.
  unfold overlap_of.
  pose proof (length_last_chars CHUNK_OVERLAP_CHARS c) as H.
  destruct (find_space _); [rewrite length_skipn|]; lia.
Qed.

Lemma length_seed (c : str) : length (seed c) <= CHUNK_OVERLAP_CHARS.
Proof.
  unfold seed. pose proof (length_lstrip (overlap_of c)).
  pose proof (length_overlap_of c). lia.
Qed.

(** X7: when every paragraph, once stripped, leaves room for the overlap and
    the separator (its length plus 322 is at most the target of 2400), no
    chunk is longer than the target. *)
Theorem chunks_within_target (text : str) :
  (forall p, In p (split_paragraphs text) ->
             length (strip p) + CHUNK_OVERLAP_CHARS + 2 <= CHUNK_TARGET_CHARS) ->
  forall c, In c (split_into_chunks text) -> length c <= CHUNK_TARGET_CHARS.
Proof.
  intros Hp c Hin. apply filter_In in Hin. destruct Hin as [Hin _].
  assert (forall paras st,
            (forall p, In p paras ->
               length (strip p) + CHUNK_OVERLAP_CHARS + 2 <= CHUNK_TARGET_CHARS) ->
            stripped_or_empty (snd st) ->
            Forall (fun c => length c <= CHUNK_TARGET_CHARS) (snd st :: fst st) ->
            stripped_or_empty (snd (fold_left chunk_step paras st))
            /\ Forall (fun c => length c <= CHUNK_TARGET_CHARS)
                      (snd (fold_left chunk_step paras st)
                       :: fst (fold_left chunk_step paras st))) as F.
  { induction paras as [|p paras IH]; intros st Hps Hs Hb; simpl; [now split|].
    apply IH.
    - intros q Hq. apply Hps. now right.
    - now apply chunk_step_keeps_stripped.
    - destruct st as [chunks current]. cbn [fst snd] in *.
      inversion Hb as [|? ? Hcur Hch]; subst.
      pose proof (Hps p (or_introl eq_refl)) as Hlen.
      destruct (chunk_step_cases chunks current p Hs)
        as [[_ ->]|[[_ [_ ->]]|[[_ [_ [T ->]]]|[_ [_ [_ ->]]]]]];
        cbn [fst snd].
      + assumption.
      + constructor; [lia|assumption].
      + constructor; [exact T|assumption].
      + constructor.
        * rewrite !length_app. pose proof (length_seed current).
          simpl length. lia.
        * apply Forall_app. split; [assumption|]. now constructor. }
  destruct (F (split_paragraphs text) ([], []) Hp (or_introl eq_refl))
    as [HS HB].
  { constructor; [simpl; unfold CHUNK_TARGET_CHARS; lia|constructor]. }
  fold (chunk_loop text) in HS, HB.
  inversion HB as [|? ? Hcur Hch]; subst. rewrite Forall_forall in Hch.
  destruct (closed_chunks_cases text HS) as [E|[E N]]; rewrite E in Hin.
  - now apply Hch.
  - apply in_app_or in Hin. destruct Hin as [Hin|[<-|[]]];
      [now apply Hch|assumption].
Qed.

Lemma chunks_within_target_witness :
  length words_first <= CHUNK_TARGET_CHARS.
Proof.
  apply (chunks_within_target words_text).
  - assert (forallb (fun p => length (strip p) + CHUNK_OVERLAP_CHARS + 2
                              <=? CHUNK_TARGET_CHARS)
                    (split_paragraphs words_text) = true) as H
      by (vm_compute; reflexivity).
    rewrite forallb_forall in H. intros p Hp. now apply Nat.leb_le, H.
  - vm_compute. left. reflexivity.
Defined.

(** ** Paragraphs are not cut *)

Lemma contains_refl (p : str) : contains p p.
Proof. exists [], []. now rewrite app_nil_r. Qed.

Lemma contains_app_l (x c p : str) : contains c p -> contains (x ++ c) p.
Proof. intros [a [b ->]]. exists (x ++ a), b. now rewrite app_assoc. Qed.

Lemma contains_app_r (x c p : str) : contains c p -> contains (c ++ x) p.
Proof.
  intros [a [b ->]]. exists a, (b ++ x). now rewrite <- !app_assoc.
Qed.

Lemma contains_length (c p : str) : contains c p -> length p <= length c.
Proof. intros [a [b ->]]. rewrite !length_app. lia. Qed.

Lemma chunk_step_holds (st : list str * str) (para : str) :
  stripped_or_empty (snd st) -> strip para <> [] ->
  held (strip para) (chunk_step st para).
Proof.
  destruct st as [chunks current]. cbn [snd]. intros Hs Nb. right.
  destruct (chunk_step_cases chunks current para Hs)
    as [[E _]|[[_ [_ ->]]|[[_ [_ [_ ->]]]|[_ [_ [_ ->]]]]]]; cbn [snd].
  - contradiction.
  - apply contains_refl.
  - apply contains_app_l, contains_app_l, contains_refl.
  - apply contains_app_l, contains_app_l, contains_refl.
Qed.

Lemma chunk_step_keeps_held (b : str) (st : list str * str) (para : str) :
  stripped_or_empty (snd st) -> held b st -> held b (chunk_step st para).
Proof.
  destruct st as [chunks current]. cbn [snd]. intros Hs H.
  destruct (chunk_step_cases chunks current para Hs)
    as [[_ ->]|[[_ [Ec ->]]|[[_ [_ [_ ->]]]|[_ [_ [_ ->]]]]]].
  - exact H.
  - destruct H as [H|H]; [now left|]. subst current. right.
    destruct H as [a [b' E]]. destruct a; [|discriminate].
    destruct b; [|discriminate]. exists [], (strip para). reflexivity.
  - destruct H as [H|H]; [now left|]. right. now apply contains_app_r.
  - left. destruct H as [[c [Hc Hb]]|H].
    + exists c. split; [|assumption]. apply in_or_app. now left.
    + exists current. split; [|assumption]. apply in_or_app. right. now left.
Qed.

Lemma fold_chunk_step_stripped (paras : list str) (st : list str * str) :
  stripped_or_empty (snd st) ->
  stripped_or_empty (snd (fold_left chunk_step paras st)).
Proof.
  revert st. induction paras as [|p paras IH]; intros st H; simpl;
    [assumption|].
  apply IH. now apply chunk_step_keeps_stripped.
Qed.

Lemma fold_chunk_step_held (b : str) (paras : list str) (st : list str * str) :
  stripped_or_empty (snd st) -> held b st ->
  held b (fold_left chunk_step paras st).
Proof.
  revert st. induction paras as [|p paras IH]; intros st Hs H; simpl;
    [assumption|].
  apply IH; [now apply chunk_step_keeps_stripped|].
  now apply chunk_step_keeps_held.
Qed.

(** X8: a paragraph is never cut.  Every paragraph of the text, once
    stripped, occurs as a whole in a chunk closed by the loop or in the last
    buffer; if it has at least 200 characters, it occurs as a whole in a
    chunk that [split_into_chunks] returns. *)
Theorem paragraphs_are_kept_whole (text p : str) :
  In p (split_paragraphs text) -> strip p <> [] ->
  (exists c, In c (fst (chunk_loop text) ++ [snd (chunk_loop text)])
             /\ contains c (strip p))
  /\ (MIN_CHUNK_CHARS <= length (strip p) ->
      exists c, In c (split_into_chunks text) /\ contains c (strip p)).
Proof.
  intros Hin Nb.
  destruct (in_split p (split_paragraphs text) Hin) as [l1 [l2 E]].
  assert (held (strip p) (chunk_loop text)
          /\ stripped_or_empty (snd (chunk_loop text))) as [H HS].
  { unfold chunk_loop. rewrite E, fold_left_app. cbn [fold_left].
    assert (stripped_or_empty (snd (fold_left chunk_step l1 ([], [])))) as S1
      by (apply fold_chunk_step_stripped; now left).
    split.
    - apply fold_chunk_step_held.
      + now apply chunk_step_keeps_stripped.
      + now apply chunk_step_holds.
    - apply fold_chunk_step_stripped. now apply chunk_step_keeps_stripped. }
  assert (exists c, In c (fst (chunk_loop text) ++ [snd (chunk_loop text)])
                    /\ contains c (strip p)) as [c [Hc Hb]].
  { destruct H as [[c [Hc Hb]]|H].
    - exists c. split; [apply in_or_app; now left|assumption].
    - exists (snd (chunk_loop text)).
      split; [apply in_or_app; right; now left|assumption]. }
  split; [now exists c|].
  intros Hmin. exists c. split; [|assumption].
  pose proof (contains_length c (strip p) Hb) as Hl.
  apply filter_In. split; [|apply Nat.leb_le; lia].
  apply in_app_or in Hc.
  destruct (closed_chunks_cases text HS) as [Ecl|[Ecl N]]; rewrite Ecl.
  - destruct Hc as [Hc|[<-|[]]]; [assumption|].
    exfalso. revert Ecl. unfold closed_chunks.
    destruct (chunk_loop text) as [chunks current]. cbn [fst snd] in *.
    rewrite (stripped_or_empty_fixed current HS).
    assert (nonempty current = true) as Nc.
    { apply nonempty_true. intros ->. simpl in Hl.
      unfold MIN_CHUNK_CHARS in Hmin. lia. }
    assert ((MIN_CHUNK_CHARS <=? length current) = true) as Lc
      by (apply Nat.leb_le; lia).
    rewrite Nc, Lc. simpl. intros K.
    apply (f_equal (@List.length str)) in K. rewrite length_app in K.
    simpl in K. lia.
  - apply in_or_app. destruct Hc as [Hc|Hc]; [now left|now right].
Qed.

Lemma paragraphs_are_kept_whole_witness :
  exists c, In c (split_into_chunks words_text)
            /\ contains c (strip (rep 100 "next ")).
Proof.
  refine (proj2 (paragraphs_are_kept_whole words_text (rep 100 "next ") _ _) _).
  - vm_compute. right. left. reflexivity.
  - vm_compute. discriminate.
  - apply Nat.leb_le. vm_compute. reflexivity.
Defined.

(** ** Token estimates *)

(** X9: the estimate is a quarter of the length, rounded down, and at least
    one; for a chunk returned by [split_into_chunks] it is at least 50. *)
Theorem estimate_tokens_bounds (text c : str) :
  (1 <= estimate_tokens c)
  /\ (4 <= length c ->
      4 * estimate_tokens c <= length c < 4 * estimate_tokens c + 4)
  /\ (In c (split_into_chunks text) -> 50 <= estimate_tokens c).
Proof.
  unfold estimate_tokens.
  pose proof (Nat.div_mod_eq (length c) 4) as D.
  pose proof (Nat.mod_upper_bound (length c) 4 ltac:(lia)) as B.
  split; [lia|]. split; [lia|].
  intros Hin. apply filter_In in Hin. destruct Hin as [_ Hl].
  apply Nat.leb_le in Hl. unfold MIN_CHUNK_CHARS in Hl. lia.
Qed.

(** ** Batches *)

Lemma batches_prefix (chunks : list str) (n : nat) :
  List.concat (map (batch_at chunks)
                   (map (fun k => k * EMBED_BATCH_SIZE) (seq 0 n)))
  = firstn (n * EMBED_BATCH_SIZE) chunks.
Proof.
  induction n as [|n IH]; [reflexivity|].
  rewrite seq_S, !map_app, concat_app, IH. cbn [map List.concat Nat.add].
  rewrite app_nil_r. unfold batch_at.
  replace (S n * EMBED_BATCH_SIZE)
    with (n * EMBED_BATCH_SIZE + EMBED_BATCH_SIZE) by lia.
  symmetry. apply firstn_add.
Qed.

(** X10: the loop over [range(0, total, EMBED_BATCH_SIZE)] cuts the chunks
    into consecutive batches: put end to end they are the list of chunks,
    and each batch has between 1 and 20 chunks. *)
Theorem batches_partition_the_chunks (chunks : list str) :
  List.concat (map (batch_at chunks)
                   (range_step (length chunks) EMBED_BATCH_SIZE))
  = chunks
  /\ Forall (fun batch_idx =>
               1 <= length (batch_at chunks batch_idx) <= EMBED_BATCH_SIZE)
            (range_step (length chunks) EMBED_BATCH_SIZE).
Proof.
  split.
  - unfold range_step. rewrite batches_prefix.
    apply firstn_all2, range_step_covers.
  - apply Forall_forall. intros i Hi. unfold range_step in Hi.
    apply in_map_iff in Hi. destruct Hi as [k [<- Hk]].
    apply in_seq in Hk. unfold batch_at.
    rewrite length_firstn, length_skipn.
    unfold EMBED_BATCH_SIZE in *.
    pose proof (Nat.div_mod_eq (length chunks + 20 - 1) 20) as D.
    pose proof (Nat.mod_upper_bound (length chunks + 20 - 1) 20) as B.
    lia.
Qed.

(** ** The rows of the other sources *)

Lemma filter_other_source {Vec} (s s' : str) (l : list (KnowledgeChunk Vec)) :
  s' <> s ->
  filter (of_source s') (filter (fun row => negb (of_source s row)) l)
  = filter (of_source s') l.
Proof.
  intros Hne. induction l as [|row rest IH]; simpl; [reflexivity|].
  destruct (of_source s row) eqn:E; simpl.
  - destruct (of_source s' row) eqn:E'; [|assumption].
    unfold of_source in *. apply str_eqb_true in E, E'. congruence.
  - destruct (of_source s' row); [now rewrite IH|assumption].
Qed.

Section AnyRun.

Context {Vec : Type}.
Variable env : Env Vec.

(** The inner loop, whatever fails. *)
Lemma insert_pairs_any (s : str) (batch_idx : nat) (pairs : list (str * Vec)) :
  forall (j : nat) (conn : Db Vec) (stored : nat),
  exists conn' rows ok,
    insert_pairs env s batch_idx j pairs conn stored
    = (conn', stored + length rows, ok)
    /\ table conn' = table conn
    /\ txn conn' = txn conn ++ rows
    /\ Forall (fun row => of_source s row = true) rows
    /\ length rows <= length pairs.
Proof.
  induction pairs as [|[text e] rest IH]; intros j conn stored.
  - exists conn, [], true. simpl. rewrite Nat.add_0_r, app_nil_r.
    repeat split; [constructor|lia].
  - simpl. unfold db_insert_chunk.
    destruct (insert_raises env s batch_idx j).
    + exists conn, [], false. simpl. rewrite Nat.add_0_r, app_nil_r.
      repeat split; [constructor|lia].
    + match goal with
      | |- context [insert_pairs env s batch_idx (S j) rest ?c (S stored)] =>
          destruct (IH (S j) c (S stored))
            as [conn' [rows [ok [E [Ht [Hx [Hs Hl]]]]]]]
      end.
      simpl in Ht, Hx.
      eexists conn', (_ :: rows), ok.
      split; [rewrite E; f_equal; f_equal; simpl; lia|].
      split; [exact Ht|].
      split; [rewrite Hx, <- app_assoc; reflexivity|].
      split; [constructor; [apply str_eqb_true; reflexivity|exact Hs]|].
      simpl. lia.
Qed.

Lemma batch_step_inv (s api_key : str) (chunks : list str)
    (base : list (KnowledgeChunk Vec)) (bound batch_idx : nat)
    (st : Db Vec * nat * nat) :
  run_inv s base bound st ->
  run_inv s base (bound + length (batch_at chunks batch_idx))
          (batch_step env s api_key chunks st batch_idx).
Proof.
  destruct st as [[conn stored] skipped].
  intros [new [Ht [Hn [Hx [Hl [Hs Hk]]]]]].
  unfold batch_step. fold (batch_at chunks batch_idx).
  set (batch := batch_at chunks batch_idx).
  destruct (embed_batch env batch_idx batch api_key) as [embeddings|].
  - destruct (insert_pairs_any s batch_idx (combine batch embeddings)
                0 conn stored)
      as [conn' [rows [ok [E [Ht' [Hx' [Hs' Hl']]]]]]].
    rewrite E. rewrite length_combine in Hl'.
    destruct ok.
    + exists (new ++ txn conn'). cbn [conn_commit logged table txn].
      split; [rewrite Ht', Ht, <- app_assoc; reflexivity|].
      split.
      { apply Forall_app. split; [assumption|]. rewrite Hx'.
        apply Forall_app. now split. }
      split; [constructor|].
      split; [rewrite length_app, Hx', length_app; simpl; lia|].
      split; lia.
    + exists new.
      split; [now rewrite Ht'|]. split; [assumption|].
      split; [rewrite Hx'; apply Forall_app; now split|].
      split; [rewrite Hx', length_app; lia|].
      split; lia.
  - exists new. repeat split; try assumption; lia.
Qed.

Lemma batches_inv (s api_key : str) (chunks : list str)
    (base : list (KnowledgeChunk Vec)) (conn : Db Vec) :
  table conn = base -> txn conn = [] ->
  forall n,
    run_inv s base (length (firstn (n * EMBED_BATCH_SIZE) chunks))
      (fold_left (batch_step env s api_key chunks)
                 (map (fun k => k * EMBED_BATCH_SIZE) (seq 0 n)) (conn, 0, 0)).
Proof.
  intros Ht Hx. induction n as [|n IH].
  - exists []. cbn [fold_left map seq]. rewrite app_nil_r, Hx.
    repeat split; try assumption; try constructor; simpl; lia.
  - rewrite seq_S, map_app, fold_left_app. cbn [map fold_left Nat.add].
    replace (S n * EMBED_BATCH_SIZE)
      with (n * EMBED_BATCH_SIZE + EMBED_BATCH_SIZE) by lia.
    rewrite firstn_add, length_app. fold (batch_at chunks (n * EMBED_BATCH_SIZE)).
    now apply batch_step_inv.
Qed.

(** A live run, whatever fails. *)
Lemma store_chunks_any (s api_key : str) (chunks : list str) (db : Db Vec) :
  exists new stored skipped,
    table (fst (store_chunks env s api_key chunks db)) = other_rows s db ++ new
    /\ txn (fst (store_chunks env s api_key chunks db)) = []
    /\ snd (store_chunks env s api_key chunks db) = Complete stored skipped
    /\ Forall (fun row => of_source s row = true) new
    /\ length new <= stored /\ stored <= length chunks
    /\ skipped <= length chunks.
Proof.
  rewrite store_chunks_unfold.
  destruct (after_delete_spec s db) as [Ht [Hx _]].
  pose proof (batches_inv s api_key chunks (other_rows s db)
                (after_delete s db) Ht Hx
                ((length chunks + EMBED_BATCH_SIZE - 1) / EMBED_BATCH_SIZE))
    as H.
  rewrite firstn_all2 in H by apply range_step_covers.
  unfold range_step.
  destruct (fold_left _ _ _) as [[conn stored] skipped].
  destruct H as [new [Ht' [Hn [Hx' [Hl [Hs Hk]]]]]].
  exists new, stored, skipped. cbn [fst snd conn_close logged table txn].
  repeat split; try assumption. lia.
Qed.

Lemma rows_of_other_source (s s' : str) (new : list (KnowledgeChunk Vec))
    (db db' : Db Vec) :
  s' <> s ->
  table db' = other_rows s db ++ new ->
  Forall (fun row => of_source s row = true) new ->
  rows_of s' db' = rows_of s' db.
Proof.
  intros Hne Ht Hn. unfold rows_of, other_rows in *. rewrite Ht, filter_app.
  assert (filter (of_source s') new = []) as ->.
  { clear Ht. induction Hn as [|row rest Hr _ IH]; simpl; [reflexivity|].
    destruct (of_source s' row) eqn:E; [|assumption].
    unfold of_source in *. apply str_eqb_true in E, Hr. congruence. }
  rewrite app_nil_r. clear Ht.
  induction (table db) as [|row rest IH]; simpl; [reflexivity|].
  destruct (of_source s row) eqn:E; simpl.
  - destruct (of_source s' row) eqn:E'; [|assumption].
    unfold of_source in *. apply str_eqb_true in E, E'. congruence.
  - destruct (of_source s' row); [now rewrite IH|assumption].
Qed.

Lemma ingest_source_other_source (cfg : SourceCfg) (api_key : str)
    (dry_run : bool) (db : Db Vec) (s' : str) :
  s' <> cfg_source cfg ->
  rows_of s' (fst (ingest_source env cfg api_key dry_run db)) = rows_of s' db.
Proof.
  intros Hne. unfold ingest_source.
  destruct (pdf_pages env (cfg_file cfg)) as [pages|]; [|reflexivity].
  destruct dry_run; [reflexivity|].
  destruct (store_chunks_any (cfg_source cfg) api_key
              (split_into_chunks (clean_text (join [LF; LF] pages))) db)
    as [new [stored [skipped [Ht [_ [_ [Hn _]]]]]]].
  now apply (rows_of_other_source (cfg_source cfg) s' new).
Qed.

(** X11: [ingest_source] only touches the rows of its own source: in every
    mode, and whatever fails during the run, the rows of any other source
    are the same before and after. *)
Theorem ingest_source_keeps_other_sources (cfg : SourceCfg) (api_key : str)
    (dry_run : bool) (db : Db Vec) (s' : str) :
  s' <> cfg_source cfg ->
  rows_of s' (fst (ingest_source env cfg api_key dry_run db)) = rows_of s' db.
Proof.
  intros Hne. unfold ingest_source.
  destruct (pdf_pages env (cfg_file cfg)) as [pages|]; [|reflexivity].
  destruct dry_run; [reflexivity|].
  destruct (store_chunks_any (cfg_source cfg) api_key
              (split_into_chunks (clean_text (join [LF; LF] pages))) db)
    as [new [stored [skipped [Ht [_ [_ [Hn _]]]]]]].
  unfold rows_of. rewrite Ht, filter_app.
  assert (filter (of_source s') new = []) as ->.
  { clear Ht. induction Hn as [|row rest Hr _ IH]; simpl; [reflexivity|].
    destruct (of_source s' row) eqn:E; [|assumption].
    unfold of_source in *. apply str_eqb_true in E, Hr. congruence. }
  rewrite app_nil_r. unfold other_rows. now apply filter_other_source.
Qed.

(** X12: a live run never leaves more rows of the source than it has chunks,
    whatever fails: the rows of the source in the table are at most
    [stored], and [stored] and [skipped] are at most the number of chunks. *)
Theorem live_run_never_duplicates (cfg : SourceCfg) (api_key : str)
    (pages : list str) (db : Db Vec) :
  pdf_pages env (cfg_file cfg) = Some pages ->
  let chunks := split_into_chunks (clean_text (join [LF; LF] pages)) in
  let run := ingest_source env cfg api_key false db in
  exists stored skipped,
    snd run = Complete stored skipped
    /\ length (rows_of (cfg_source cfg) (fst run)) <= stored
    /\ stored <= length chunks
    /\ skipped <= length chunks
    /\ txn (fst run) = [].
Proof.
  intros Hfile chunks run. unfold run, ingest_source. rewrite Hfile.
  fold chunks.
  destruct (store_chunks_any (cfg_source cfg) api_key chunks db)
    as [new [stored [skipped [Ht [Hx [Ho [Hn [Hl [Hs Hk]]]]]]]]].
  exists stored, skipped.
  destruct (rows_of_replaced (cfg_source cfg) new db _ Ht Hn) as [Hr _].
  rewrite Hr. repeat split; assumption.
Qed.

End AnyRun.

Lemma ingest_source_keeps_other_sources_witness :
  rows_of (lit "ACE")
    (fst (ingest_source (demo_env 3 second_insert_raises) demo_cfg
            (lit "sk-test") false db_two_sources))
  = rows_of (lit "ACE") db_two_sources.
Proof.
  apply ingest_source_keeps_other_sources. vm_compute. discriminate.
Defined.

Lemma live_run_never_duplicates_witness :
  exists stored skipped,
    snd (ingest_source (demo_env 3 second_insert_raises) demo_cfg
           (lit "sk-test") false db_two_sources)
    = Complete stored skipped
    /\ length (rows_of (lit "NASM")
                 (fst (ingest_source (demo_env 3 second_insert_raises)
                         demo_cfg (lit "sk-test") false db_two_sources)))
       <= stored.
Proof.
  destruct (live_run_never_duplicates (demo_env 3 second_insert_raises)
              demo_cfg (lit "sk-test") [demo_page 3] db_two_sources eq_refl)
    as [stored [skipped [H1 [H2 _]]]].
  exists stored, skipped. split; [exact H1|exact H2].
Defined.

(** ** Runs that store nothing *)

Section EmptyRuns.

Context {Vec : Type}.
Variable env : Env Vec.

Lemma join_blank (pages : list str) :
  Forall blank_text pages -> blank_text (join [LF; LF] pages).
Proof.
  induction 1 as [|p rest Hp Hr IH]; simpl; [constructor|].
  destruct rest as [|q rest']; [assumption|].
  apply Forall_app. split; [assumption|].
  constructor; [reflexivity|]. constructor; [reflexivity|assumption].
Qed.

Lemma store_no_chunks (s api_key : str) (db : Db Vec) :
  table (fst (store_chunks env s api_key [] db)) = other_rows s db
  /\ txn (fst (store_chunks env s api_key [] db)) = []
  /\ snd (store_chunks env s api_key [] db) = Complete 0 0.
Proof.
  rewrite store_chunks_unfold.
  destruct (after_delete_spec s db) as [Ht [Hx _]].
  cbn [length range_step]. unfold range_step. simpl.
  repeat split; assumption.
Qed.

(** X13: a document whose pages hold only whitespace (no text layer) gives no
    chunk, and a live run on it deletes the rows of the source and stores
    nothing: the table keeps the rows of the other sources only. *)
Theorem blank_document_erases_the_source (cfg : SourceCfg) (api_key : str)
    (pages : list str) (db : Db Vec) :
  pdf_pages env (cfg_file cfg) = Some pages ->
  (forall page c, In page pages -> In c page -> is_space c = true) ->
  let run := ingest_source env cfg api_key false db in
  table (fst run) = other_rows (cfg_source cfg) db
  /\ rows_of (cfg_source cfg) (fst run) = []
  /\ snd run = Complete 0 0.
Proof.
  intros Hfile Hblank run. unfold run, ingest_source. rewrite Hfile.
  assert (blank_text (join [LF; LF] pages)) as Hb.
  { apply join_blank. apply Forall_forall. intros page Hp.
    apply Forall_forall. intros c Hc. now apply (Hblank page c). }
  rewrite (clean_text_blank _ Hb).
  change (split_into_chunks []) with (@nil str).
  destruct (store_no_chunks (cfg_source cfg) api_key db) as [Ht [Hx Ho]].
  split; [assumption|]. split; [|assumption].
  destruct (rows_of_replaced (cfg_source cfg) [] db _
              ltac:(rewrite app_nil_r; exact Ht) ltac:(constructor))
    as [Hr _].
  exact Hr.
Qed.

(** The loop when every request fails. *)
Lemma batches_all_fail (s api_key : str) (chunks : list str) (conn : Db Vec) :
  (forall batch_idx texts,
     openai_embeddings env api_key batch_idx texts = None) ->
  forall n,
    fold_left (batch_step env s api_key chunks)
              (map (fun k => k * EMBED_BATCH_SIZE) (seq 0 n)) (conn, 0, 0)
    = (conn, 0, length (firstn (n * EMBED_BATCH_SIZE) chunks)).
Proof.
  intros Hfail. induction n as [|n IH]; [reflexivity|].
  rewrite seq_S, map_app, fold_left_app, IH. cbn [map fold_left Nat.add].
  rewrite batch_step_request_fails by apply Hfail.
  replace (S n * EMBED_BATCH_SIZE)
    with (n * EMBED_BATCH_SIZE + EMBED_BATCH_SIZE) by lia.
  rewrite firstn_add, length_app. reflexivity.
Qed.

(** X14: when the embedding service fails on every request, a live run still
    deletes the rows of the source: it ends with no row of the source,
    nothing stored and every chunk skipped. *)
Theorem failing_service_erases_the_source (cfg : SourceCfg) (api_key : str)
    (pages : list str) (db : Db Vec) :
  pdf_pages env (cfg_file cfg) = Some pages ->
  (forall batch_idx texts,
     openai_embeddings env api_key batch_idx texts = None) ->
  let chunks := split_into_chunks (clean_text (join [LF; LF] pages)) in
  let run := ingest_source env cfg api_key false db in
  table (fst run) = other_rows (cfg_source cfg) db
  /\ rows_of (cfg_source cfg) (fst run) = []
  /\ snd run = Complete 0 (length chunks).
Proof.
  intros Hfile Hfail chunks run. unfold run, ingest_source. rewrite Hfile.
  fold chunks. rewrite store_chunks_unfold. unfold range_step.
  rewrite (batches_all_fail (cfg_source cfg) api_key chunks _ Hfail).
  rewrite firstn_all2 by apply range_step_covers.
  destruct (after_delete_spec (cfg_source cfg) db) as [Ht [Hx _]].
  cbn [fst snd].
  assert (table (conn_close (after_delete (cfg_source cfg) db))
          = other_rows (cfg_source cfg) db) as Ht' by exact Ht.
  split; [exact Ht'|]. split; [|reflexivity].
  destruct (rows_of_replaced (cfg_source cfg) [] db _
              ltac:(rewrite app_nil_r; exact Ht') ltac:(constructor))
    as [Hr _].
  exact Hr.
Qed.

End EmptyRuns.

Lemma blank_document_erases_the_source_witness :
  rows_of (lit "NASM") db_with_50_rows <> []
  /\ rows_of (lit "NASM")
       (fst (ingest_source blank_env demo_cfg (lit "sk-test") false
               db_with_50_rows)) = [].
Proof.
  split; [vm_compute; discriminate|].
  refine (proj1 (proj2 (blank_document_erases_the_source blank_env demo_cfg
                          (lit "sk-test") blank_pages db_with_50_rows
                          eq_refl _))).
  intros page c Hp Hc.
  assert (forallb (forallb is_space) blank_pages = true) as H
    by (vm_compute; reflexivity).
  rewrite forallb_forall in H. specialize (H page Hp).
  rewrite forallb_forall in H. now apply H.
Defined.

Lemma failing_service_erases_the_source_witness :
  rows_of (lit "NASM")
    (fst (ingest_source (down_env 3) demo_cfg (lit "sk-test") false
            db_with_50_rows)) = []
  /\ snd (ingest_source (down_env 3) demo_cfg (lit "sk-test") false
            db_with_50_rows) = Complete 0 3.
Proof.
  destruct (failing_service_erases_the_source (down_env 3) demo_cfg
              (lit "sk-test") [demo_page 3] db_with_50_rows eq_refl
              (fun _ _ => eq_refl))
    as [_ [H1 H2]].
  split; [exact H1|]. rewrite H2. vm_compute. reflexivity.
Defined.

(** ** An answer with too few items *)

Lemma map_fst_combine_firstn {A B} (l : list A) (l' : list B) :
  map fst (combine l l') = firstn (length l') l.
Proof.
  revert l'. induction l as [|a l IH]; intros [|b l']; simpl;
    try reflexivity.
  now rewrite IH.
Qed.

(** X15: a batch whose request is answered with fewer items than it had
    texts is not counted as skipped: [zip] pairs the first chunks with the
    items, these are stored and committed, and the other chunks of the batch
    are neither stored nor skipped. *)
Theorem short_answer_is_not_skipped {Vec} (env : Env Vec) (s api_key : str)
    (chunks : list str) (conn : Db Vec) (stored skipped batch_idx : nat)
    (data : list (Item Vec)) :
  openai_embeddings env api_key batch_idx (batch_at chunks batch_idx)
  = Some data ->
  (forall j, insert_raises env s batch_idx j = false) ->
  txn conn = [] ->
  exists conn' rows,
    batch_step env s api_key chunks (conn, stored, skipped) batch_idx
    = (conn', stored + length rows, skipped)
    /\ table conn' = table conn ++ rows
    /\ txn conn' = []
    /\ map (@content Vec) rows
       = firstn (length data) (batch_at chunks batch_idx).
Proof.
  intros Hd Hins Htx.
  unfold batch_step, embed_batch. fold (batch_at chunks batch_idx). rewrite Hd.
  set (batch := batch_at chunks batch_idx) in *.
  set (embeddings := map (@item_embedding Vec) (sorted_by_index data)).
  assert (length embeddings = length data) as Hl.
  { unfold embeddings. rewrite length_map.
    symmetry. apply Permutation_length, sorted_by_index_perm. }
  destruct (insert_pairs_all env s batch_idx (combine batch embeddings)
              Hins 0 conn stored)
    as [conn' [rows [w [E [Ht [Hx [Hc [Hs [Ho Hw]]]]]]]]].
  rewrite E.
  exists (conn_commit conn'), rows.
  assert (length rows = length (combine batch embeddings)) as Hr.
  { rewrite <- (length_map (@content Vec) rows), Hc. now rewrite length_map. }
  split; [now rewrite Hr|]. cbn [conn_commit logged table txn].
  split; [now rewrite Ht, Hx, Htx|]. split; [reflexivity|].
  rewrite Hc, map_fst_combine_firstn. now rewrite Hl.
Qed.

Lemma short_answer_is_not_skipped_witness :
  snd (ingest_source (one_item_env 3) demo_cfg (lit "sk-test") false empty_db)
  = Complete 1 0
  /\ exists conn' (rows : list (KnowledgeChunk nat)),
       batch_step (one_item_env 3) (lit "NASM") (lit "sk-test")
         (split_into_chunks (clean_text (demo_page 3))) (empty_db, 0, 0) 0
       = (conn', 0 + length rows, 0)
       /\ length rows = 1.
Proof.
  split; [vm_compute; reflexivity|].
  destruct (short_answer_is_not_skipped (one_item_env 3) (lit "NASM")
              (lit "sk-test") (split_into_chunks (clean_text (demo_page 3)))
              empty_db 0 0 0 _ eq_refl (fun _ => eq_refl) eq_refl)
    as [conn' [rows [E [_ [_ Hc]]]]].
  exists conn', rows. split; [exact E|].
  apply (f_equal (@List.length str)) in Hc. rewrite length_map in Hc.
  rewrite Hc. vm_compute. reflexivity.
Defined.

(** ** Counting and deleting *)

(** X16: for a source with a non-empty name, [db_delete_source] returns the
    number that [db_count] gave just before, leaves nothing to count for
    this source, commits, and does not change the count of any other
    source. *)
Theorem delete_then_count {Vec} (db : Db Vec) (s : str) :
  s <> [] ->
  snd (db_delete_source db s) = snd (db_count db s)
  /\ snd (db_count (fst (db_delete_source db s)) s) = 0
  /\ txn (fst (db_delete_source db s)) = []
  /\ (forall s', s' <> [] -> s' <> s ->
        snd (db_count (fst (db_delete_source db s)) s')
        = snd (db_count db s')).
Proof.
  intros Hs. apply nonempty_true in Hs.
  unfold db_count, db_delete_source, conn_commit, logged, visible.
  cbn [fst snd table txn]. rewrite Hs, !app_nil_r.
  split; [reflexivity|]. split; [now rewrite filter_negb_none|].
  split; [reflexivity|].
  intros s' Hs' Hne. apply nonempty_true in Hs'. rewrite Hs'.
  now rewrite filter_other_source.
Qed.

Lemma delete_then_count_witness :
  snd (db_delete_source db_two_sources (lit "ACE")) = 2
  /\ snd (db_count (fst (db_delete_source db_two_sources (lit "ACE")))
            (lit "ACE")) = 0.
Proof.
  destruct (delete_then_count db_two_sources (lit "ACE")
              ltac:(vm_compute; discriminate)) as [H1 [H2 _]].
  split; [rewrite H1; vm_compute; reflexivity|exact H2].
Defined.

(** ** [main] with a selected source *)

Section SelectedSource.

Context {Vec : Type}.
Variable env : Env Vec.

Lemma ingest_all_other_source (sources : list SourceCfg) (api_key : str)
    (dry_run : bool) (s' : str) :
  (forall cfg, In cfg sources -> s' <> cfg_source cfg) ->
  forall db, rows_of s' (fst (ingest_all env sources api_key dry_run db))
             = rows_of s' db.
Proof.
  induction sources as [|cfg rest IH]; intros Hs db; simpl; [reflexivity|].
  pose proof (ingest_source_other_source env cfg api_key dry_run db s'
                (Hs cfg (or_introl eq_refl))) as H1.
  destruct (ingest_source env cfg api_key dry_run db) as [db1 o].
  cbn [fst] in H1.
  pose proof (IH (fun c Hc => Hs c (or_intror Hc)) db1) as H2.
  destruct (ingest_all env rest api_key dry_run db1) as [db2 os].
  cbn [fst] in *. congruence.
Qed.

(** X17: [main] called with [--source name] only touches the rows of that
    source: when it ends normally, the rows of every other source are the
    same before and after, in preview and in live mode, whatever fails
    during the run. *)
Theorem main_keeps_unselected_sources (name : str) (dry_run : bool)
    (db db' : Db Vec) (report : list Outcome) (total : option nat)
    (s' : str) :
  name <> [] -> s' <> name ->
  main env (Some name) dry_run db = Done db' report total ->
  rows_of s' db' = rows_of s' db.
Proof.
  intros Hn Hne. unfold main.
  destruct name as [|c n]; [contradiction|].
  cbv beta iota zeta.
  set (name := c :: n) in *.
  set (sources := filter (fun cfg => str_eqb (cfg_source cfg) name) PDF_SOURCES).
  assert (forall cfg, In cfg sources -> s' <> cfg_source cfg) as Hsrc.
  { intros cfg Hc. apply filter_In in Hc. destruct Hc as [_ Hc].
    apply str_eqb_true in Hc. congruence. }

  destruct sources as [|cfg0 rest] eqn:Es; [discriminate|].
  destruct (if dry_run then Some [] else load_api_key env) as [api_key|];
    [|discriminate].
  pose proof (ingest_all_other_source (cfg0 :: rest) api_key dry_run s' Hsrc db)
    as H.
  destruct (ingest_all env (cfg0 :: rest) api_key dry_run db) as [db1 rep].
  cbn [fst] in H.
  destruct dry_run; intros E; inversion E; subst; exact H.
Qed.

End SelectedSource.

Lemma main_keeps_unselected_sources_witness :
  match main blank_env (Some (lit "NASM")) false db_two_sources with
  | Done db' _ _ =>
      rows_of (lit "ACE") db' = rows_of (lit "ACE") db_two_sources
  | _ => False
  end.
Proof.
  destruct (main blank_env (Some (lit "NASM")) false db_two_sources)
    as [| |db' report total] eqn:E.
  - vm_compute in E. discriminate.
  - vm_compute in E. discriminate.
  - apply (main_keeps_unselected_sources blank_env (lit "NASM") false
             db_two_sources db' report total (lit "ACE")).
    + vm_compute. discriminate.
    + vm_compute. discriminate.
    + exact E.
Defined.

(** ** The key read from [.env] *)

Section StripChars.

Variable p : ascii -> bool.

Lemma rstrip_chars_keep (init : str) (z : ascii) :
  p z = false -> rstrip_chars p (init ++ [z]) = init ++ [z].
Proof.
  intros Hz. induction init as [|c init IH]; simpl.
  - now rewrite Hz.
  - rewrite IH. destruct (init ++ [z]) eqn:E; [|reflexivity].
    now destruct init.
Qed.

Lemma rstrip_chars_all (y : str) :
  Forall (fun c => p c = true) y -> rstrip_chars p y = [].
Proof.
  induction 1 as [|c r Hc Hr IH]; simpl; [reflexivity|].
  now rewrite IH, Hc.
Qed.

Lemma rstrip_chars_drop (l y : str) :
  Forall (fun c => p c = true) y ->
  rstrip_chars p (l ++ y) = rstrip_chars p l.
Proof.
  intros Hy. induction l as [|c l IH]; simpl.
  - now apply rstrip_chars_all.
  - now rewrite IH.
Qed.

Lemma dropwhile_drop (x l : str) :
  Forall (fun c => p c = true) x -> dropwhile p (x ++ l) = dropwhile p l.
Proof.
  induction 1 as [|c r Hc Hr IH]; simpl; [reflexivity|]. now rewrite Hc.
Qed.

(** [k] between two runs of characters to strip. *)
Lemma strip_chars_between (x y k init m : str) (c z : ascii) :
  Forall (fun a => p a = true) x -> Forall (fun a => p a = true) y ->
  k = c :: m -> p c = false -> k = init ++ [z] -> p z = false ->
  strip_chars p (x ++ k ++ y) = k.
Proof.
  intros Hx Hy Ek Hc Ek' Hz. unfold strip_chars.
  rewrite (dropwhile_drop x _ Hx).
  assert (dropwhile p (k ++ y) = k ++ y) as ->
    by (rewrite Ek; simpl; now rewrite Hc).
  rewrite (rstrip_chars_drop k y Hy), Ek'. now apply rstrip_chars_keep.
Qed.

Lemma rstrip_chars_result (l : str) :
  rstrip_chars p l = []
  \/ exists init z, rstrip_chars p l = init ++ [z] /\ p z = false.
Proof.
  induction l as [|c r IH]; simpl; [now left|].
  destruct (rstrip_chars p r) as [|d r'] eqn:E.
  - destruct (p c) eqn:Hc; [now left|]. right. now exists [], c.
  - right. destruct IH as [IH|[init [z [E' Hz]]]]; [discriminate|].
    exists (c :: init), z. split; [|assumption]. simpl. now rewrite E'.
Qed.

Lemma dropwhile_result (l : str) :
  dropwhile p l = [] \/ exists c m, dropwhile p l = c :: m /\ p c = false.
Proof.
  induction l as [|c r IH]; simpl; [now left|].
  destruct (p c) eqn:Hc; [assumption|]. right. now exists c, r.
Qed.

Lemma rstrip_chars_keeps_head (l m : str) (c : ascii) :
  l = c :: m -> p c = false -> exists m', rstrip_chars p l = c :: m'.
Proof.
  intros -> Hc. simpl. destruct (rstrip_chars p m) as [|d r'].
  - rewrite Hc. now exists [].
  - now exists (d :: r').
Qed.

(** What [strip(chars)] returns starts and ends outside [chars]. *)
Lemma strip_chars_result (l : str) :
  strip_chars p l = []
  \/ ((exists c m, strip_chars p l = c :: m /\ p c = false)
      /\ (exists init z, strip_chars p l = init ++ [z] /\ p z = false)).
Proof.
  unfold strip_chars.
  destruct (dropwhile_result l) as [E|[c [m [E Hc]]]].
  - left. now rewrite E.
  - right. destruct (rstrip_chars_keeps_head _ m c E Hc) as [m' E'].
    split; [now exists c, m'|].
    destruct (rstrip_chars_result (dropwhile p l)) as [K|K]; [|exact K].
    congruence.
Qed.

End StripChars.

Lemma startswith_true (prefix l : str) :
  startswith prefix l = true <-> exists rest, l = prefix ++ rest.
Proof.
  revert l. induction prefix as [|x prefix IH]; intros l; simpl.
  - split; [intros _; now exists l|reflexivity].
  - destruct l as [|y l]; [split; [discriminate|intros [r E]; discriminate]|].
    destruct (Ascii.eqb x y) eqn:E.
    + apply ascii_eqb_true in E. subst y. rewrite IH. split.
      * intros [r ->]. now exists r.
      * intros [r E]. inversion E. now exists r.
    + apply ascii_eqb_false in E. split; [discriminate|].
      intros [r K]. inversion K. congruence.
Qed.

Lemma split_once_prefix (value : str) :
  nth_error (split_once "="%char (OPENAI_API_KEY_EQ ++ value)) 1 = Some value.
Proof. reflexivity. Qed.

(** X18: [load_api_key] never fails on the index [1] of the split; it fails
    with [FileNotFoundError] exactly when the file is missing; and a key it
    returns is not empty, neither starts nor ends with a single quote, and
    comes from a line that starts, once stripped, with [OPENAI_API_KEY=]. *)
Theorem load_api_key_result (dotenv : option str) :
  load_api_key_from dotenv <> IndexError
  /\ (load_api_key_from dotenv = FileNotFoundError <-> dotenv = None)
  /\ (forall key, load_api_key_from dotenv = Key key ->
        key <> []
        /\ (forall m, key <> SQUOTE :: m)
        /\ (forall init, key <> init ++ [SQUOTE])
        /\ exists text line rest,
             dotenv = Some text /\ In line (splitlines text)
             /\ strip line = OPENAI_API_KEY_EQ ++ rest).
Proof.
  assert (forall lines,
            first_key lines <> IndexError
            /\ first_key lines <> FileNotFoundError
            /\ forall key, first_key lines = Key key ->
                 key <> []
                 /\ (forall m, key <> SQUOTE :: m)
                 /\ (forall init, key <> init ++ [SQUOTE])
                 /\ exists line rest,
                      In line lines
                      /\ strip line = OPENAI_API_KEY_EQ ++ rest) as H.
  { induction lines as [|line rest IH].
    - simpl. repeat split; try discriminate.
    - cbn [first_key]. cbv zeta. destruct IH as [I1 [I2 I3]].
      assert (forall key, first_key rest = Key key ->
                key <> []
                /\ (forall m, key <> SQUOTE :: m)
                /\ (forall init, key <> init ++ [SQUOTE])
                /\ exists line0 rest0,
                     (line = line0 \/ In line0 rest)
                     /\ strip line0 = OPENAI_API_KEY_EQ ++ rest0) as I3'.
      { intros key Hk. destruct (I3 key Hk) as [A [B [C [l0 [r0 [Hin Hs]]]]]].
        repeat split; try assumption. exists l0, r0. split; [now right|exact Hs]. }
      destruct (startswith OPENAI_API_KEY_EQ (strip line)) eqn:S;
        [|split; [exact I1|split; [exact I2|exact I3']]].
      apply startswith_true in S. destruct S as [value Ev].
      rewrite Ev, split_once_prefix.
      set (key := strip_chars (Ascii.eqb SQUOTE)
                    (strip_chars (Ascii.eqb DQUOTE) (strip value))).
      destruct (nonempty key) eqn:N;
        [|split; [exact I1|split; [exact I2|exact I3']]].
      split; [discriminate|]. split; [discriminate|].
      intros k Hk. inversion Hk; subst k. apply nonempty_true in N.
      split; [assumption|].
      destruct (strip_chars_result (Ascii.eqb SQUOTE)
                  (strip_chars (Ascii.eqb DQUOTE) (strip value)))
        as [K|[[c [m [Ec Hc]]] [init [z [Ez Hz]]]]]; [contradiction|].
      fold key in Ec, Ez. apply ascii_eqb_false in Hc, Hz.
      split; [intros m' K; rewrite K in Ec; inversion Ec; congruence|].
      split.
      { intros init' K. rewrite K in Ez. apply app_inj_tail in Ez.
        destruct Ez as [_ Ez]. congruence. }
      exists line, value. split; [now left|exact Ev]. }
  destruct dotenv as [text|]; simpl.
  - destruct (H (splitlines text)) as [H1 [H2 H3]].
    split; [assumption|]. split; [split; [contradiction|discriminate]|].
    intros key Hk. destruct (H3 key Hk) as [A [B [C [line [rest [Hin Hs]]]]]].
    repeat split; try assumption. now exists text, line, rest.
  - split; [discriminate|]. split; [split; reflexivity|]. discriminate.
Qed.

Lemma splitlines_line (line rest : str) :
  no_linebreak line ->
  splitlines (line ++ LF :: rest) = line :: splitlines rest.
Proof.
  induction 1 as [|c line Hc Hl IH].
  - simpl. destruct rest; reflexivity.
  - cbn [app splitlines]. rewrite Hc, IH. reflexivity.
Qed.

Lemma splitlines_unlines (lines : list str) (rest : str) :
  Forall no_linebreak lines ->
  splitlines (unlines lines ++ rest) = lines ++ splitlines rest.
Proof.
  unfold unlines. induction 1 as [|line lines Hl Hls IH]; simpl;
    [reflexivity|].
  rewrite <- !app_assoc. cbn [app].
  now rewrite (splitlines_line line _ Hl), IH.
Qed.

Lemma first_key_skip (before lines : list str) :
  (forall line, In line before ->
                startswith OPENAI_API_KEY_EQ (strip line) = false) ->
  first_key (before ++ lines) = first_key lines.
Proof.
  induction before as [|l before IH]; intros H; [reflexivity|].
  cbn [app first_key]. cbv zeta.
  rewrite (H l (or_introl eq_refl)). apply IH.
  intros line Hin. apply H. now right.
Qed.

Lemma strip_chars_fixed (p : ascii -> bool) (k init m : str) (c z : ascii) :
  k = c :: m -> p c = false -> k = init ++ [z] -> p z = false ->
  strip_chars p k = k.
Proof.
  intros Ek Hc Ek' Hz.
  pose proof (strip_chars_between p [] [] k init m c z
                ltac:(constructor) ltac:(constructor) Ek Hc Ek' Hz) as H.
  now rewrite app_nil_r in H.
Qed.

(** The value of the key line, with or without quotes around the key. *)
Lemma key_of_value (q k : str) :
  plain_key k -> q = [] \/ q = [DQUOTE] \/ q = [SQUOTE] ->
  strip_chars (Ascii.eqb SQUOTE)
    (strip_chars (Ascii.eqb DQUOTE) (strip (q ++ k ++ q))) = k.
Proof.
  intros [_ [[c [m [Hkc [Sc [Dc Qc]]]]] [init [z [Ez [Sz [Dz Qz]]]]]]] Hq.
  assert (Ascii.eqb DQUOTE c = false /\ Ascii.eqb DQUOTE z = false
          /\ Ascii.eqb SQUOTE c = false /\ Ascii.eqb SQUOTE z = false)
    as [Dc' [Dz' [Qc' Qz']]]
    by (repeat split; apply ascii_eqb_false; congruence).
  assert (starts_nonspace k) as Sk by now exists c, m.
  assert (ends_nonspace k) as Ek by now exists init, z.
  assert (strip_chars (Ascii.eqb SQUOTE) k = k) as Fq
    by exact (strip_chars_fixed _ k init m c z Hkc Qc' Ez Qz').
  assert (strip_chars (Ascii.eqb DQUOTE) k = k) as Fd
    by exact (strip_chars_fixed _ k init m c z Hkc Dc' Ez Dz').
  destruct Hq as [-> | [-> | ->]].
  - rewrite app_nil_r. cbn [app]. rewrite (strip_fixed k Sk Ek).
    now rewrite Fd.
  - assert (strip ([DQUOTE] ++ k ++ [DQUOTE]) = [DQUOTE] ++ k ++ [DQUOTE]) as ->.
    { apply strip_fixed.
      - now exists DQUOTE, (k ++ [DQUOTE]).
      - exists ([DQUOTE] ++ k), DQUOTE.
        split; [now rewrite <- app_assoc|reflexivity]. }
    assert (strip_chars (Ascii.eqb DQUOTE) ([DQUOTE] ++ k ++ [DQUOTE]) = k) as ->.
    { apply (strip_chars_between _ [DQUOTE] [DQUOTE] k init m c z);
        try assumption; repeat constructor. }
    exact Fq.
  - assert (strip ([SQUOTE] ++ k ++ [SQUOTE]) = [SQUOTE] ++ k ++ [SQUOTE]) as ->.
    { apply strip_fixed.
      - now exists SQUOTE, (k ++ [SQUOTE]).
      - exists ([SQUOTE] ++ k), SQUOTE.
        split; [now rewrite <- app_assoc|reflexivity]. }
    assert (strip_chars (Ascii.eqb DQUOTE) ([SQUOTE] ++ k ++ [SQUOTE])
            = [SQUOTE] ++ k ++ [SQUOTE]) as ->.
    { apply (strip_chars_fixed _ _ ([SQUOTE] ++ k) (k ++ [SQUOTE])
               SQUOTE SQUOTE); reflexivity. }
    apply (strip_chars_between _ [SQUOTE] [SQUOTE] k init m c z);
      try assumption; repeat constructor.
Qed.

Lemma no_linebreak_key_line (q k : str) :
  plain_key k -> q = [] \/ q = [DQUOTE] \/ q = [SQUOTE] ->
  no_linebreak (OPENAI_API_KEY_EQ ++ q ++ k ++ q).
Proof.
  intros [Hk _] Hq.
  assert (no_linebreak q) as Nq
    by (destruct Hq as [-> | [-> | ->]]; repeat constructor).
  apply Forall_app. split; [repeat constructor|].
  apply Forall_app. split; [assumption|]. apply Forall_app. now split.
Qed.

Lemma strip_key_line (q k : str) :
  plain_key k -> q = [] \/ q = [DQUOTE] \/ q = [SQUOTE] ->
  strip (OPENAI_API_KEY_EQ ++ q ++ k ++ q) = OPENAI_API_KEY_EQ ++ q ++ k ++ q.
Proof.
  intros [_ [_ [init [z [Ez [Sz _]]]]]] Hq. apply strip_fixed.
  - now exists "O"%char, (lit "PENAI_API_KEY=" ++ q ++ k ++ q).
  - apply ends_nonspace_app, ends_nonspace_app.
    destruct Hq as [-> | [-> | ->]].
    + rewrite app_nil_r. now exists init, z.
    + now exists k, DQUOTE.
    + now exists k, SQUOTE.
Qed.

(** X19: the key is read back as it is written.  When [.env] holds first
    lines that do not start with [OPENAI_API_KEY=] and then the line
    [OPENAI_API_KEY=] followed by a key, bare or between two double quotes
    or two single quotes, [load_api_key] returns this key, whatever
    follows. *)
Theorem load_api_key_round_trip (before : list str) (q k rest : str) :
  Forall no_linebreak before ->
  (forall line, In line before ->
                startswith OPENAI_API_KEY_EQ (strip line) = false) ->
  plain_key k ->
  q = [] \/ q = [DQUOTE] \/ q = [SQUOTE] ->
  load_api_key_from
    (Some (unlines before ++ (OPENAI_API_KEY_EQ ++ q ++ k ++ q) ++ LF :: rest))
  = Key k.
Proof.
  intros Hb Hskip Hk Hq. unfold load_api_key_from.
  rewrite (splitlines_unlines before _ Hb).
  rewrite (splitlines_line _ rest (no_linebreak_key_line q k Hk Hq)).
  rewrite (first_key_skip before _ Hskip).
  cbn [first_key]. cbv zeta. rewrite (strip_key_line q k Hk Hq).
  assert (startswith OPENAI_API_KEY_EQ (OPENAI_API_KEY_EQ ++ q ++ k ++ q)
          = true) as -> by (apply startswith_true; now eexists).
  rewrite split_once_prefix, (key_of_value q k Hk Hq).
  destruct Hk as [_ [[c [m [-> _]]] _]]. reflexivity.
Qed.

Lemma load_api_key_round_trip_witness :
  load_api_key_from
    (Some (unlines dotenv_before
           ++ (OPENAI_API_KEY_EQ ++ [DQUOTE] ++ dotenv_key ++ [DQUOTE])
           ++ LF :: lit "PORT=3000"))
  = Key dotenv_key.
Proof.
  apply load_api_key_round_trip.
  - repeat constructor.
  - intros line Hin.
    assert (forallb (fun l => negb (startswith OPENAI_API_KEY_EQ (strip l)))
              dotenv_before = true) as H by (vm_compute; reflexivity).
    rewrite forallb_forall in H. apply negb_true_iff. now apply H.
  - split; [repeat constructor|]. split.
    + exists "s"%char, (lit "k-abc123"). split; [reflexivity|].
      repeat split; discriminate.
    + exists (lit "sk-abc12"), "3"%char. split; [reflexivity|].
      repeat split; discriminate.
  - right. left. reflexivity.
Defined.

(** ** Any answer of the service *)

(** X20: whatever items the service answers with, [embed_batch] returns
    their vectors, all of them and no other, arranged by non-decreasing
    index; it does not look at the number of items or at the values of the
    indices. *)
Theorem embed_batch_orders_any_answer {Vec} (env : Env Vec) (api_key : str)
    (batch_idx : nat) (texts : list str) (data : list (Item Vec)) :
  openai_embeddings env api_key batch_idx texts = Some data ->
  exists items,
    embed_batch env batch_idx texts api_key
    = Some (map (@item_embedding Vec) items)
    /\ Permutation items data
    /\ StronglySorted index_le items
    /\ length items = length data.
Proof.
  intros H. exists (sorted_by_index data). unfold embed_batch. rewrite H.
  split; [reflexivity|].
  split; [apply Permutation_sym, sorted_by_index_perm|].
  split; [apply sorted_by_index_sorted|].
  symmetry. apply Permutation_length, sorted_by_index_perm.
Qed.

Lemma embed_batch_orders_any_answer_witness :
  exists items,
    embed_batch shuffling_env 0 [lit "a"] (lit "sk-test")
    = Some (map (@item_embedding nat) items)
    /\ length items = 3.
Proof.
  destruct (embed_batch_orders_any_answer shuffling_env (lit "sk-test") 0
              [lit "a"] shuffled_answer eq_refl)
    as [items [H1 [_ [_ H4]]]].
  exists items. split; [exact H1|exact H4].
Defined.
